(** * Contextual FAQ Generator: extraction and synthesis pipeline

    A shallow embedding of the two services of the backend,
    [services/crawlerService.js] (the extractor, [crawlWebsite]) and
    [services/openaiService.js] (the synthesizer, [generateFaqs]), and the
    properties the specification states about them.

    JavaScript strings are sequences of UTF-16 code units; a code unit is a
    number in [N].  The document handed to the extractor is the tree
    [cheerio.load] builds; the provider the synthesizer talks to is a script
    of outcomes, one per request. *)

From Stdlib Require Import Ascii String.
From Stdlib Require Import List NArith ZArith QArith Qround Bool Lia.
Import ListNotations.

#[local] Set Warnings "-register-all".
Close Scope Q_scope.
Open Scope string_scope.
Open Scope list_scope.

(* ===================================================================== *)
(** * JavaScript strings *)
(* ===================================================================== *)

Module JS.

Definition jsstring := list N.

(** A literal of the source text, one code unit per character. *)
Definition lit (s : string) : jsstring :=
  map N_of_ascii (list_ascii_of_string s).

(** A literal with the two characters a Rocq string cannot hold at ease:
    an apostrophe stands for the double quote (34) and a vertical bar for
    the line feed (10). *)
Definition qlit (s : string) : jsstring :=
  map (fun c => if N.eqb c 39 then 34 else if N.eqb c 124 then 10 else c)%N
      (lit s).

Definition jsstring_eqb (a b : jsstring) : bool :=
  if list_eq_dec N.eq_dec a b then true else false.

(** [\s] of a regular expression, and the characters [trim] removes:
    WhiteSpace and LineTerminator of ECMAScript. *)
Definition is_space (c : N) : bool :=
  ((c =? 9) || (c =? 10) || (c =? 11) || (c =? 12) || (c =? 13)
   || (c =? 32) || (c =? 160) || (c =? 5760)
   || ((8192 <=? c) && (c <=? 8202))
   || (c =? 8232) || (c =? 8233) || (c =? 8239) || (c =? 8287)
   || (c =? 12288) || (c =? 65279))%N.

Definition SPACE : N := 32.
Definition TAB : N := 9.
Definition LF : N := 10.
Definition CR : N := 13.

Fixpoint trimStart (s : jsstring) : jsstring :=
  match s with
  | [] => []
  | c :: r => if is_space c then trimStart r else s
  end.

Fixpoint trimEnd (s : jsstring) : jsstring :=
  match s with
  | [] => []
  | c :: r =>
      match trimEnd r with
      | [] => if is_space c then [] else [c]
      | r' => c :: r'
      end
  end.

(** [String.prototype.trim]. *)
Definition trim (s : jsstring) : jsstring := trimEnd (trimStart s).

(** Length of the longest prefix whose characters all satisfy [p]. *)
Fixpoint span_length (p : N -> bool) (s : jsstring) : nat :=
  match s with
  | [] => 0
  | c :: r => if p c then S (span_length p r) else 0
  end.

(** Length of the shortest prefix of [s] that holds every [c] of [s]. *)
Fixpoint upto_last (c : N) (s : jsstring) : option nat :=
  match s with
  | [] => None
  | d :: r =>
      match upto_last c r with
      | Some k => Some (S k)
      | None => if N.eqb d c then Some 1%nat else None
      end
  end.

(** [s.startsWith(p)], with the rest of [s] after [p]. *)
Fixpoint strip_prefix (p s : jsstring) : option jsstring :=
  match p, s with
  | [], _ => Some s
  | _ :: _, [] => None
  | a :: p', b :: s' => if N.eqb a b then strip_prefix p' s' else None
  end.

(** [s.replace(re, rep)] for a global regular expression [re] that matches
    no empty string and looks neither behind nor ahead.  [m t] is the length
    of the match of [re] at the start of [t], if there is one.  The scan
    goes left to right; after a match it resumes behind the match, which is
    what [skip] counts down. *)
Fixpoint replace_all (m : jsstring -> option nat) (rep : jsstring)
         (skip : nat) (s : jsstring) : jsstring :=
  match s with
  | [] => []
  | c :: r =>
      match skip with
      | S k => replace_all m rep k r
      | O =>
          match m s with
          | Some (S k) => rep ++ replace_all m rep k r
          | _ => c :: replace_all m rep 0 r
          end
      end
  end.

(** Decimal rendering of a natural number, as a template literal does. *)
Fixpoint uint_codes (d : Decimal.uint) : jsstring :=
  match d with
  | Decimal.Nil => []
  | Decimal.D0 r => 48 :: uint_codes r
  | Decimal.D1 r => 49 :: uint_codes r
  | Decimal.D2 r => 50 :: uint_codes r
  | Decimal.D3 r => 51 :: uint_codes r
  | Decimal.D4 r => 52 :: uint_codes r
  | Decimal.D5 r => 53 :: uint_codes r
  | Decimal.D6 r => 54 :: uint_codes r
  | Decimal.D7 r => 55 :: uint_codes r
  | Decimal.D8 r => 56 :: uint_codes r
  | Decimal.D9 r => 57 :: uint_codes r
  end%N.

Definition show_nat (n : nat) : jsstring := uint_codes (Nat.to_uint n).

Definition show_Z (z : Z) : jsstring :=
  match z with
  | Zneg p => 45%N :: show_nat (Pos.to_nat p)
  | _ => show_nat (Z.to_nat z)
  end.

(** ** Numbers

    A number is NaN, an infinity or a finite value.  [Math.floor],
    [Math.max] and [Math.min] are exact on doubles, so a rational stands
    for the finite ones; the negative zero behaves as zero in all that
    follows. *)
Inductive number :=
| NaN
| Inf (negative : bool)
| Fin (q : Q).

Definition Math_floor (x : number) : number :=
  match x with
  | Fin q => Fin (inject_Z (Qfloor q))
  | _ => x
  end.

(** ToBoolean of a number. *)
Definition number_truthy (x : number) : bool :=
  match x with
  | NaN => false
  | Inf _ => true
  | Fin q => negb (Qeq_bool q 0%Q)
  end.

(** [x || d]. *)
Definition or_default (x d : number) : number :=
  if number_truthy x then x else d.

Definition number_leb (x y : number) : bool :=
  match x, y with
  | NaN, _ | _, NaN => false
  | Inf true, _ => true
  | _, Inf false => true
  | Inf false, _ => false
  | _, Inf true => false
  | Fin a, Fin b => Qle_bool a b
  end.

Definition Math_max (x y : number) : number :=
  match x, y with
  | NaN, _ | _, NaN => NaN
  | _, _ => if number_leb x y then y else x
  end.

Definition Math_min (x y : number) : number :=
  match x, y with
  | NaN, _ | _, NaN => NaN
  | _, _ => if number_leb x y then x else y
  end.

(** The integer a finite integral number denotes (0 otherwise), for an
    array length or index. *)
Definition number_to_nat (x : number) : nat :=
  match x with
  | Fin q => Z.to_nat (Qfloor q)
  | _ => 0
  end.

End JS.

(* ===================================================================== *)
(** * The extractor: services/crawlerService.js *)
(* ===================================================================== *)

Module Crawler.
Import JS.

(** ** The document tree

    What [cheerio.load] returns: text nodes, elements with their attributes
    in source order, and nodes that carry no text (comments, doctype). *)
Inductive node :=
| Text (data : jsstring)
| Comment (data : jsstring)
| Element (name : jsstring) (attribs : list (jsstring * jsstring))
          (children : list node).

Definition document := list node.

Fixpoint get_attr (k : jsstring) (attribs : list (jsstring * jsstring))
  : option jsstring :=
  match attribs with
  | [] => None
  | (k', v) :: r => if jsstring_eqb k k' then Some v else get_attr k r
  end.

(** The whitespace-separated words of an attribute value. *)
Fixpoint words_from (cur : jsstring) (s : jsstring) : list jsstring :=
  match s with
  | [] => match cur with [] => [] | _ => [rev cur] end
  | c :: r =>
      if is_space c
      then match cur with
           | [] => words_from [] r
           | _ => rev cur :: words_from [] r
           end
      else words_from (c :: cur) r
  end.

Definition words (s : jsstring) : list jsstring := words_from [] s.

(** The selectors the service uses: [name], [.cls], [[k="v"]] and
    [name[k="v"]]. *)
Inductive selector :=
| ByTag (name : jsstring)
| ByClass (cls : jsstring)
| ByAttr (k v : jsstring)
| ByTagAttr (name k v : jsstring).

Definition attr_is (k v : jsstring) (attribs : list (jsstring * jsstring))
  : bool :=
  match get_attr k attribs with
  | Some v' => jsstring_eqb v v'
  | None => false
  end.

Definition matches (sel : selector) (name : jsstring)
           (attribs : list (jsstring * jsstring)) : bool :=
  match sel with
  | ByTag n => jsstring_eqb n name
  | ByClass c =>
      match get_attr (lit "class") attribs with
      | Some v => existsb (jsstring_eqb c) (words v)
      | None => false
      end
  | ByAttr k v => attr_is k v attribs
  | ByTagAttr n k v => jsstring_eqb n name && attr_is k v attribs
  end.

(** The elements of a subtree that pass a test, in document order. *)
Fixpoint select_where (p : jsstring -> list (jsstring * jsstring) -> bool)
         (n : node) : list node :=
  match n with
  | Element name attribs children =>
      (if p name attribs then [n] else [])
        ++ flat_map (select_where p) children
  | _ => []
  end.

(** [$(sel)]: the matching elements, in document order. *)
Definition select (sel : selector) (doc : document) : list node :=
  flat_map (select_where (matches sel)) doc.

(** A subtree without the elements that pass a test: such an element
    leaves the tree with all that is below it. *)
Fixpoint remove_where (p : jsstring -> list (jsstring * jsstring) -> bool)
         (n : node) : list node :=
  match n with
  | Element name attribs children =>
      if p name attribs then []
      else [Element name attribs (flat_map (remove_where p) children)]
  | _ => [n]
  end.

(** [$(sel).remove()] *)
Definition remove (sel : selector) (doc : document) : document :=
  flat_map (remove_where (matches sel)) doc.

(** [textContent] of a node. *)
Fixpoint text_of (n : node) : jsstring :=
  match n with
  | Text data => data
  | Comment _ => []
  | Element _ _ children => concat (map text_of children)
  end.

(** [$(sel).text()]: the texts of all selected elements, joined. *)
Definition text (sel : list node) : jsstring := concat (map text_of sel).

(** [$(sel).first()]. *)
Definition first (sel : list node) : list node := firstn 1 sel.

(** [$(sel).attr(k)]: the attribute of the first selected element. *)
Definition attr (k : jsstring) (sel : list node) : option jsstring :=
  match sel with
  | Element _ attribs _ :: _ => get_attr k attribs
  | _ => None
  end.

(** ** Whitespace normalization *)

(** [/\s+/] *)
Definition re_spaces (t : jsstring) : option nat :=
  match span_length is_space t with
  | O => None
  | n => Some n
  end.

(** [/\n\s*\n/]: a line feed, then the whitespace up to the last line feed
    of the run that follows. *)
Definition re_blank_lines (t : jsstring) : option nat :=
  match t with
  | c :: r =>
      if N.eqb c LF
      then match upto_last LF (firstn (span_length is_space r) r) with
           | Some k => Some (S k)
           | None => None
           end
      else None
  | [] => None
  end.

(** [/[\r\t]/] *)
Definition re_cr_tab (t : jsstring) : option nat :=
  match t with
  | c :: _ => if N.eqb c CR || N.eqb c TAB then Some 1%nat else None
  | [] => None
  end.

(** [/[^\S\n]+/] *)
Definition re_inline_spaces (t : jsstring) : option nat :=
  match span_length (fun c => is_space c && negb (N.eqb c LF)) t with
  | O => None
  | n => Some n
  end.

Definition cleanText (text : jsstring) : jsstring :=
  trim
    (replace_all re_inline_spaces [SPACE] 0
       (replace_all re_cr_tab [SPACE] 0
          (replace_all re_blank_lines [LF] 0
             (replace_all re_spaces [SPACE] 0 text)))).

(** ** The structured content *)

Record headings_t := {
  h1 : list jsstring; h2 : list jsstring; h3 : list jsstring;
  h4 : list jsstring; h5 : list jsstring; h6 : list jsstring
}.

(** [crawledAt] is the clock's reading and is left out. *)
Record metadata_t := {
  totalHeadings : nat;
  totalParagraphs : nat;
  textLength : nat;
  rawTextLength : nat
}.

Record structuredContent := {
  url : jsstring;
  title : jsstring;
  description : option jsstring;
  headings : headings_t;
  paragraphs : list jsstring;
  rawText : jsstring;
  cleanedText : jsstring;
  metadata : metadata_t
}.

(** The removals of lines 50-67, in the order they run. *)
Definition noise_selectors : list selector :=
  [ ByTag (lit "script"); ByTag (lit "style"); ByTag (lit "nav");
    ByTag (lit "footer"); ByTag (lit "header"); ByTag (lit "aside");
    ByClass (lit "nav"); ByClass (lit "navbar"); ByClass (lit "footer");
    ByClass (lit "header"); ByClass (lit "sidebar"); ByClass (lit "menu");
    ByAttr (lit "role") (lit "navigation");
    ByAttr (lit "role") (lit "banner");
    ByAttr (lit "role") (lit "contentinfo");
    ByTag (lit "noscript"); ByTag (lit "iframe"); ByTag (lit "svg") ].

Definition remove_noise (doc : document) : document :=
  fold_left (fun d sel => remove sel d) noise_selectors doc.

Definition nonempty (s : jsstring) : bool :=
  match s with [] => false | _ => true end.

(** [a || b] on strings: the empty string is falsy. *)
Definition or_else (a b : jsstring) : jsstring :=
  if nonempty a then a else b.

(** [a || b] where [a] may be undefined. *)
Definition opt_or_else (a : option jsstring) (b : jsstring) : jsstring :=
  match a with
  | Some s => or_else s b
  | None => b
  end.

(** Lines 70-73, on the tree the removals left. *)
Definition raw_title (doc : document) : jsstring :=
  or_else (trim (text (select (ByTag (lit "title")) doc)))
    (or_else (trim (text (first (select (ByTag (lit "h1")) doc))))
       (opt_or_else
          (attr (lit "content")
                (select (ByTagAttr (lit "meta") (lit "property")
                                   (lit "og:title")) doc))
          (lit "Untitled"))).

(** The body of one [$('hN').each] loop: trimmed texts, empty ones
    skipped. *)
Definition collect_headings (tag : jsstring) (doc : document)
  : list jsstring :=
  filter nonempty
         (map (fun e => trim (text_of e)) (select (ByTag tag) doc)).

(** Lines 96-102. *)
Definition collect_paragraphs (doc : document) : list jsstring :=
  filter (fun t => nonempty t && (20 <? length t)%nat)
         (map (fun e => trim (text_of e)) (select (ByTag (lit "p")) doc)).

(** Lines 105-112. *)
Definition main_content (doc : document) : jsstring :=
  match select (ByTag (lit "article")) doc with
  | (_ :: _) as sel => text sel
  | [] =>
      match select (ByTag (lit "main")) doc with
      | (_ :: _) as sel => text sel
      | [] => text (select (ByTag (lit "body")) doc)
      end
  end.

(** Lines 130-132: [undefined || undefined || null] is [None]; an empty
    attribute is falsy. *)
Definition raw_description (doc : document) : option jsstring :=
  let pick (a : option jsstring) :=
    match a with
    | Some s => if nonempty s then Some s else None
    | None => None
    end in
  match pick (attr (lit "content")
                (select (ByTagAttr (lit "meta") (lit "name")
                                   (lit "description")) doc)) with
  | Some s => Some s
  | None =>
      pick (attr (lit "content")
              (select (ByTagAttr (lit "meta") (lit "property")
                                 (lit "og:description")) doc))
  end.

(** Lines 49-159 of [crawlWebsite]: from the parsed page to the structured
    content.  [validUrl] is the address the page was fetched from. *)
Definition extract (validUrl : jsstring) (page : document)
  : structuredContent :=
  let doc := remove_noise page in
  let title := raw_title doc in
  let hs (n : string) := collect_headings (lit n) doc in
  let paragraphs := collect_paragraphs doc in
  let mainContent := main_content doc in
  let rawText := mainContent in
  let cleanedText := cleanText mainContent in
  let description := raw_description doc in
  {| url := validUrl;
     title := cleanText title;
     description := option_map cleanText description;
     headings :=
       {| h1 := map cleanText (hs "h1"); h2 := map cleanText (hs "h2");
          h3 := map cleanText (hs "h3"); h4 := map cleanText (hs "h4");
          h5 := map cleanText (hs "h5"); h6 := map cleanText (hs "h6") |};
     paragraphs := map cleanText paragraphs;
     rawText := rawText;
     cleanedText := cleanedText;
     metadata :=
       {| totalHeadings :=
            length (hs "h1" ++ hs "h2" ++ hs "h3" ++ hs "h4" ++ hs "h5"
                      ++ hs "h6");
          totalParagraphs := length paragraphs;
          textLength := length cleanedText;
          rawTextLength := length rawText |} |}.

(** Lines 17-20. *)
Definition normalize_url (u : jsstring) : jsstring :=
  let validUrl := trim u in
  match strip_prefix (lit "http://") validUrl,
        strip_prefix (lit "https://") validUrl with
  | None, None => lit "https://" ++ validUrl
  | _, _ => validUrl
  end.

(** [crawlWebsite] when the fetch answers with [page]; a falsy address is
    refused before any fetch. *)
Definition crawlWebsite (u : jsstring) (page : document)
  : option structuredContent :=
  match u with
  | [] => None
  | _ => Some (extract (normalize_url u) page)
  end.

End Crawler.

(* ===================================================================== *)
(** * JSON values and [JSON.parse] *)
(* ===================================================================== *)

Module Json.
Import JS.

(** A number keeps its lexeme: the synthesizer only asks for the type of a
    value.  An object keeps its members in insertion order. *)
Inductive json :=
| JNull
| JBool (b : bool)
| JNumber (lexeme : jsstring)
| JString (s : jsstring)
| JArray (items : list json)
| JObject (members : list (jsstring * json)).

Fixpoint get_prop (k : jsstring) (members : list (jsstring * json))
  : option json :=
  match members with
  | [] => None
  | (k', v) :: r => if jsstring_eqb k k' then Some v else get_prop k r
  end.

(** [o[k] = v]: an existing member keeps its place. *)
Fixpoint set_prop (k : jsstring) (v : json)
         (members : list (jsstring * json)) : list (jsstring * json) :=
  match members with
  | [] => [(k, v)]
  | (k', v') :: r =>
      if jsstring_eqb k k' then (k', v) :: r
      else (k', v') :: set_prop k v r
  end.

(** [v.k] for the member names the service reads ([faqs], [question],
    [answer]): arrays and primitives have no such member.  Reading a member
    of [null] throws and is handled where it occurs. *)
Definition get_member (v : json) (k : jsstring) : option json :=
  match v with
  | JObject members => get_prop k members
  | _ => None
  end.

Definition is_array (v : json) : bool :=
  match v with JArray _ => true | _ => false end.

Definition json_ws (c : N) : bool :=
  ((c =? 32) || (c =? 9) || (c =? 10) || (c =? 13))%N.

Fixpoint skip_ws (s : jsstring) : jsstring :=
  match s with
  | c :: r => if json_ws c then skip_ws r else s
  | [] => []
  end.

Definition is_digit (c : N) : bool := ((48 <=? c) && (c <=? 57))%N.

Definition hex_val (c : N) : option N :=
  (if (48 <=? c) && (c <=? 57) then Some (c - 48)
   else if (97 <=? c) && (c <=? 102) then Some (c - 87)
   else if (65 <=? c) && (c <=? 70) then Some (c - 55)
   else None)%N.

(** The characters of a string after its opening quote, up to the closing
    one, with the escapes resolved. *)
Fixpoint parse_string_body (acc : jsstring) (s : jsstring)
  : option (jsstring * jsstring) :=
  match s with
  | [] => None
  | c :: r =>
      if (c =? 34)%N then Some (rev acc, r)
      else if (c =? 92)%N then
        match r with
        | [] => None
        | e :: r' =>
            if ((e =? 34) || (e =? 92) || (e =? 47))%N
            then parse_string_body (e :: acc) r'
            else if (e =? 98)%N then parse_string_body (8%N :: acc) r'
            else if (e =? 102)%N then parse_string_body (12%N :: acc) r'
            else if (e =? 110)%N then parse_string_body (10%N :: acc) r'
            else if (e =? 114)%N then parse_string_body (13%N :: acc) r'
            else if (e =? 116)%N then parse_string_body (9%N :: acc) r'
            else if (e =? 117)%N then
              match r' with
              | a :: b :: c' :: d :: r'' =>
                  match hex_val a, hex_val b, hex_val c', hex_val d with
                  | Some x, Some y, Some z, Some w =>
                      parse_string_body
                        ((((x * 16 + y) * 16 + z) * 16 + w)%N :: acc) r''
                  | _, _, _, _ => None
                  end
              | _ => None
              end
            else None
        end
      else if (c <? 32)%N then None
      else parse_string_body (c :: acc) r
  end.

(** The lexeme of a number at the start of [s], and what follows it. *)
Definition parse_number (s : jsstring) : option (jsstring * jsstring) :=
  let '(sign, s1) :=
    match s with
    | c :: r => if (c =? 45)%N then ([c], r) else ([], s)
    | [] => ([], s)
    end in
  let int_part :=
    match s1 with
    | c :: r =>
        if (c =? 48)%N then Some ([c], r)
        else if is_digit c
             then let n := span_length is_digit s1 in
                  Some (firstn n s1, skipn n s1)
             else None
    | [] => None
    end in
  match int_part with
  | None => None
  | Some (ip, s2) =>
      let frac :=
        match s2 with
        | c :: r =>
            if (c =? 46)%N
            then match span_length is_digit r with
                 | O => None
                 | n => Some (c :: firstn n r, skipn n r)
                 end
            else Some ([], s2)
        | [] => Some ([], s2)
        end in
      match frac with
      | None => None
      | Some (fp, s3) =>
          let expo :=
            match s3 with
            | c :: r =>
                if ((c =? 101) || (c =? 69))%N
                then
                  let '(es, r1) :=
                    match r with
                    | d :: r' =>
                        if ((d =? 43) || (d =? 45))%N then ([d], r')
                        else ([], r)
                    | [] => ([], r)
                    end in
                  match span_length is_digit r1 with
                  | O => None
                  | n => Some (c :: es ++ firstn n r1, skipn n r1)
                  end
                else Some ([], s3)
            | [] => Some ([], s3)
            end in
          match expo with
          | None => None
          | Some (ep, s4) => Some (sign ++ ip ++ fp ++ ep, s4)
          end
      end
  end.

Definition parse_word (s : jsstring) : option (json * jsstring) :=
  match strip_prefix (lit "true") s with
  | Some r => Some (JBool true, r)
  | None =>
      match strip_prefix (lit "false") s with
      | Some r => Some (JBool false, r)
      | None =>
          match strip_prefix (lit "null") s with
          | Some r => Some (JNull, r)
          | None =>
              match parse_number s with
              | Some (lx, r) => Some (JNumber lx, r)
              | None => None
              end
          end
      end
  end.

(** Recursive descent over the JSON grammar.  Every call consumes a
    character before it calls again, so the fuel [JSON_parse] gives is never
    used up on a text of that length ([JsonFuel.parse_value_fuel]). *)
Fixpoint parse_value (fuel : nat) (s : jsstring) {struct fuel}
  : option (json * jsstring) :=
  match fuel with
  | O => None
  | S f =>
      match skip_ws s with
      | [] => None
      | c :: r =>
          if (c =? 123)%N then
            match skip_ws r with
            | c' :: r' =>
                if (c' =? 125)%N then Some (JObject [], r')
                else parse_members f [] r
            | [] => None
            end
          else if (c =? 91)%N then
            match skip_ws r with
            | c' :: r' =>
                if (c' =? 93)%N then Some (JArray [], r')
                else parse_elements f [] r
            | [] => None
            end
          else if (c =? 34)%N then
            match parse_string_body [] r with
            | Some (str, r') => Some (JString str, r')
            | None => None
            end
          else parse_word (c :: r)
      end
  end

with parse_elements (fuel : nat) (acc : list json) (s : jsstring)
                    {struct fuel} : option (json * jsstring) :=
  match fuel with
  | O => None
  | S f =>
      match parse_value f s with
      | None => None
      | Some (v, r) =>
          match skip_ws r with
          | c :: r' =>
              if (c =? 44)%N then parse_elements f (v :: acc) r'
              else if (c =? 93)%N then Some (JArray (rev (v :: acc)), r')
              else None
          | [] => None
          end
      end
  end

with parse_members (fuel : nat) (acc : list (jsstring * json))
                   (s : jsstring) {struct fuel}
  : option (json * jsstring) :=
  match fuel with
  | O => None
  | S f =>
      match skip_ws s with
      | c :: r =>
          if (c =? 34)%N then
            match parse_string_body [] r with
            | Some (k, r1) =>
                match skip_ws r1 with
                | c1 :: r2 =>
                    if (c1 =? 58)%N then
                      match parse_value f r2 with
                      | Some (v, r3) =>
                          match skip_ws r3 with
                          | c3 :: r4 =>
                              if (c3 =? 44)%N
                              then parse_members f (set_prop k v acc) r4
                              else if (c3 =? 125)%N
                                   then Some (JObject (set_prop k v acc), r4)
                                   else None
                          | [] => None
                          end
                      | None => None
                      end
                    else None
                | [] => None
                end
            | None => None
            end
          else None
      | [] => None
      end
  end.

(** [JSON.parse]: [None] stands for the SyntaxError it throws. *)
Definition JSON_parse (s : jsstring) : option json :=
  match parse_value (2 * length s + 2) s with
  | Some (v, r) => match skip_ws r with [] => Some v | _ => None end
  | None => None
  end.

End Json.

(* ===================================================================== *)
(** * The synthesizer: services/openaiService.js *)
(* ===================================================================== *)

Module Synth.
Import JS Json.

(** Modelled from the spec: [utils/constants.js] is not among the sources;
    its value is the documented default of the count, the fixed baseline 5. *)
Definition DEFAULT_FAQ_COUNT : number := Fin 5.

(** Modelled from the spec: the other constant of [utils/constants.js], the
    fixed upper bound of the text's length, 10,000 characters. *)
Definition MAX_TEXT_LENGTH : nat := 100 * 100.

(** ** What the provider answers *)

(** [response.choices[0].message.content]; [None] is null or undefined. *)
Record completion := { content : option jsstring }.

(** What a property that should hold an object holds: nothing
    ([undefined]), [null], or the object.  A primitive reads as an object
    without the members asked for. *)
Inductive slot (A : Type) : Type :=
| Missing
| IsNull
| Has (a : A).

Arguments Missing {A}.
Arguments IsNull {A}.
Arguments Has {A} a.

(** [error.response.headers]: the one header the service reads; [None] is
    undefined. *)
Record response_headers := {
  retry_after : option jsstring
}.

(** [error.response.data]: [data.error?.message] and [data.message];
    [None] is undefined. *)
Record response_data := {
  data_error_message : option jsstring;
  data_message : option jsstring
}.

(** The fields of [error.response] the service reads. *)
Record http_response := {
  resp_status : Z;
  headers : slot response_headers;
  data : slot response_data
}.

(** The error a request is rejected with. *)
Record api_error := {
  status : option Z;
  response : option http_response;
  message : option jsstring
}.

(** What a [throw] carries. *)
Inductive exn :=
| Error (msg : jsstring)
| SyntaxError (msg : jsstring)
| ApiError (e : api_error)
| Undefined.

(** The surroundings of a call: [process.env], the provider's answer to
    the n-th request of the call, given the prompt it carries, and the text
    of the SyntaxError the engine's [JSON.parse] gives for a text it
    rejects. *)
Record env := {
  OPENAI_API_KEY : option jsstring;
  provider : jsstring -> nat -> api_error + completion;
  syntax_error_message : jsstring -> jsstring
}.

(** What a call leaves behind: the requests sent and the delays slept, in
    milliseconds. *)
Record world := {
  requests : nat;
  sleeps : list Z
}.

Definition start : world := {| requests := 0; sleeps := [] |}.

(** ** Computations that may throw *)

Definition M (A : Type) : Type := world -> (exn + A) * world.

Definition ret {A} (a : A) : M A := fun w => (inr a, w).

Definition throw {A} (e : exn) : M A := fun w => (inl e, w).

Definition bind {A B} (m : M A) (k : A -> M B) : M B :=
  fun w =>
    match m w with
    | (inr a, w') => k a w'
    | (inl e, w') => (inl e, w')
    end.

Definition try_catch {A} (m : M A) (h : exn -> M A) : M A :=
  fun w =>
    match m w with
    | (inr a, w') => (inr a, w')
    | (inl e, w') => h e w'
    end.

Definition lift {A} (r : exn + A) : M A := fun w => (r, w).

Notation "x <- m ;; k" := (bind m (fun x => k))
  (at level 100, m at next level, right associativity).

(** [await openai.chat.completions.create(...)] *)
Definition create (E : env) (prompt : jsstring) : M completion :=
  fun w =>
    let w' := {| requests := S (requests w); sleeps := sleeps w |} in
    match provider E prompt (requests w) with
    | inl e => (inl (ApiError e), w')
    | inr c => (inr c, w')
    end.

(** [await new Promise(resolve => setTimeout(resolve, delay))] *)
Definition sleep (delay : Z) : M unit :=
  fun w => (inr tt, {| requests := requests w;
                       sleeps := sleeps w ++ [delay] |}).

(** [error.status >= 400 && error.status < 500] *)
Definition client_error (error : exn) : bool :=
  match error with
  | ApiError a =>
      match status a with
      | Some s => ((400 <=? s) && (s <? 500))%Z
      | None => false
      end
  | _ => false
  end.

(** The loop of [makeOpenAIRequest]; [left] counts the iterations for
    which [attempt <= retries] still holds. *)
Fixpoint request_loop (E : env) (prompt : jsstring)
         (retries attempt left : nat) (lastError : exn) : M completion :=
  match left with
  | O => throw lastError
  | S left' =>
      try_catch (create E prompt)
        (fun error =>
           if client_error error then throw error
           else if (attempt <? retries)%nat
                then _ <- sleep (2 ^ Z.of_nat attempt * 1000) ;;
                     request_loop E prompt retries (S attempt) left' error
                else request_loop E prompt retries (S attempt) left' error)
  end.

Definition makeOpenAIRequest (E : env) (prompt : jsstring) (retries : nat)
  : M completion :=
  request_loop E prompt retries 0 (S retries) Undefined.

(** ** Reading the answer *)

(** [/```json\s*/] *)
Definition re_json_fence (t : jsstring) : option nat :=
  match strip_prefix (lit "```json") t with
  | Some r => Some (7 + span_length is_space r)%nat
  | None => None
  end.

(** [/```\s*/] *)
Definition re_fence (t : jsstring) : option nat :=
  match strip_prefix (lit "```") t with
  | Some r => Some (3 + span_length is_space r)%nat
  | None => None
  end.

(** Lines 199-201. *)
Definition strip_fences (content : jsstring) : jsstring :=
  trim (replace_all re_fence [] 0
          (replace_all re_json_fence [] 0 (trim content))).

Fixpoint from_first (c : N) (s : jsstring) : option jsstring :=
  match s with
  | [] => None
  | d :: r => if N.eqb d c then Some s else from_first c r
  end.

(** [s.match(/\[[\s\S]*\]/)]: from the first opening bracket to the last
    closing bracket behind it. *)
Definition match_array (s : jsstring) : option jsstring :=
  match from_first 91 s with
  | Some (b :: r) =>
      match upto_last 93 r with
      | Some k => Some (b :: firstn k r)
      | None => None
      end
  | _ => None
  end.

(** Lines 205-217: the direct decode.  [None] when it yields nothing: the
    text is no JSON, the value is [null] (reading [faqs] of it throws, and
    the throw is swallowed), or it is neither an object with an array in
    [faqs] nor an array. *)
Definition direct_decode (jsonString : jsstring) : option json :=
  match JSON_parse jsonString with
  | Some JNull => None
  | Some parsed =>
      match get_member parsed (lit "faqs") with
      | Some (JArray items) => Some (JArray items)
      | _ => if is_array parsed then Some parsed else None
      end
  | None => None
  end.

Definition parseFaqResponse (E : env) (response : completion)
  : exn + json :=
  match content response with
  | None | Some [] => inl (Error (lit "Empty response from OpenAI API"))
  | Some content =>
      let jsonString := strip_fences content in
      match direct_decode jsonString with
      | Some faqs => inr faqs
      | None =>
          let jsonString :=
            match match_array jsonString with
            | Some jsonMatch => jsonMatch
            | None => jsonString
            end in
          match JSON_parse jsonString with
          | None =>
              inl (SyntaxError (lit "Invalid JSON in response: "
                                  ++ syntax_error_message E jsonString))
          | Some faqs =>
              if is_array faqs then inr faqs
              else inl (Error (lit "Response is not an array"))
          end
      end
  end.

(** ** Validation and count *)

(** Line 16. *)
Definition faqCount_number (count : option number) : number :=
  let count := match count with Some c => c | None => DEFAULT_FAQ_COUNT end in
  Math_min
    (Math_max (or_default (Math_floor count) DEFAULT_FAQ_COUNT) (Fin 5))
    (Fin 10).

Definition faqCount (count : option number) : nat :=
  number_to_nat (faqCount_number count).

(** [!(!faq || typeof faq !== 'object')]: objects and arrays; [null] is
    falsy. *)
Definition is_object (faq : json) : bool :=
  match faq with
  | JObject _ | JArray _ => true
  | _ => false
  end.

(** [!(!x || typeof x !== 'string' || x.trim().length === 0)] *)
Definition valid_text (x : option json) : bool :=
  match x with
  | Some (JString s) =>
      match s with [] => false | _ => true end
      && negb (length (trim s) =? 0)%nat
  | _ => false
  end.

Definition msg_not_object (i : nat) : jsstring :=
  lit "FAQ at index " ++ show_nat i ++ lit " is not an object".

Definition msg_no_question (i : nat) : jsstring :=
  lit "FAQ at index " ++ show_nat i ++ lit " is missing a valid question".

Definition msg_no_answer (i : nat) : jsstring :=
  lit "FAQ at index " ++ show_nat i ++ lit " is missing a valid answer".

Definition msg_deficit (faqCount got : nat) : jsstring :=
  lit "Failed to generate exactly " ++ show_nat faqCount
    ++ lit " FAQs. Only received " ++ show_nat got
    ++ lit " FAQs. Please try again.".

Definition msg_mismatch (faqCount got : nat) : jsstring :=
  lit "FAQ count mismatch: expected " ++ show_nat faqCount
    ++ lit ", got " ++ show_nat got.

(** Lines 99-100: the two members are replaced by their trimmed texts. *)
Definition trim_member (k : jsstring) (faq : json) : json :=
  match faq with
  | JObject members =>
      match get_prop k members with
      | Some (JString s) => JObject (set_prop k (JString (trim s)) members)
      | _ => faq
      end
  | _ => faq
  end.

Definition trim_faq (faq : json) : json :=
  trim_member (lit "answer") (trim_member (lit "question") faq).

(** Lines 83-101: the loop over the decoded items, from index [i] on. *)
Fixpoint validate_from (i : nat) (faqs : list json) : exn + list json :=
  match faqs with
  | [] => inr []
  | faq :: rest =>
      if negb (is_object faq) then inl (Error (msg_not_object i))
      else if negb (valid_text (get_member faq (lit "question")))
      then inl (Error (msg_no_question i))
      else if negb (valid_text (get_member faq (lit "answer")))
      then inl (Error (msg_no_answer i))
      else
        match validate_from (S i) rest with
        | inl e => inl e
        | inr rest' => inr (trim_faq faq :: rest')
        end
  end.

(** Lines 75-116. *)
Definition check_faqs (faqCount : nat) (faqs : json) : exn + list json :=
  match faqs with
  | JArray faqs =>
      if (length faqs =? 0)%nat then inl (Error (lit "No FAQs generated"))
      else
        match validate_from 0 faqs with
        | inl e => inl e
        | inr faqs =>
            let trimmed :=
              if (faqCount <? length faqs)%nat
              then inr (firstn faqCount faqs)
              else if (length faqs <? faqCount)%nat
                   then inl (Error (msg_deficit faqCount (length faqs)))
                   else inr faqs in
            match trimmed with
            | inl e => inl e
            | inr faqs =>
                if negb (length faqs =? faqCount)%nat
                then inl (Error (msg_mismatch faqCount (length faqs)))
                else inr faqs
            end
        end
  | _ => inl (Error (lit "FAQs must be an array"))
  end.

(** ** The catch block of [generateFaqs] *)

(** [${x}] for a text that may be undefined. *)
Definition show_opt (x : option jsstring) : jsstring :=
  match x with Some s => s | None => lit "undefined" end.

(** [a || b] on texts that may be undefined. *)
Definition first_truthy (a b : option jsstring) : option jsstring :=
  match a with
  | Some (_ :: _) => a
  | _ => b
  end.

(** The TypeError the engine throws for reading the property [key] of
    [undefined] or [null], with the message Node gives it.  It is an Error
    with a message like any other for those who catch it. *)
Definition cannot_read {A} (target : slot A) (key : string) : exn :=
  Error (lit "Cannot read properties of "
           ++ match target with
              | IsNull => lit "null"
              | _ => lit "undefined"
              end
           ++ lit " (reading '" ++ lit key ++ lit "')").

(** Lines 117-145.  [Undefined] is never caught here: the request loop runs
    at least once and throws what the provider threw.  Reading the header
    (line 124) or a member of the data (lines 129 and 137) of a response
    that has no such object throws inside the catch block, and that
    TypeError is what leaves [generateFaqs]. *)
Definition surface (error : exn) : exn :=
  match error with
  | ApiError a =>
      match response a with
      | Some r =>
          let status := resp_status r in
          if (status =? 429)%Z then
            match headers r with
            | Has h =>
                Error (lit "Rate limit exceeded. Please try again after "
                         ++ show_opt (first_truthy (retry_after h)
                                                   (Some (lit "60")))
                         ++ lit " seconds.")
            | other => cannot_read other "retry-after"
            end
          else if ((400 <=? status) && (status <? 500))%Z then
            match data r with
            | Has errorData =>
                Error (lit "OpenAI API error (" ++ show_Z status ++ lit "): "
                         ++ show_opt
                              (first_truthy
                                 (first_truthy (data_error_message errorData)
                                               (data_message errorData))
                                 (Some (lit "Invalid request"))))
            | other => cannot_read other "error"
            end
          else if (500 <=? status)%Z then
            Error (lit "OpenAI API server error (" ++ show_Z status
                     ++ lit "): Please try again later.")
          else
            match data r with
            | Has errorData =>
                Error (lit "OpenAI API error: "
                         ++ show_opt
                              (first_truthy (data_error_message errorData)
                                            (message a)))
            | other => cannot_read other "error"
            end
      | None =>
          match message a with
          | Some ((_ :: _) as m) => Error (lit "OpenAI API error: " ++ m)
          | _ => error
          end
      end
  | SyntaxError m =>
      Error (lit "Failed to parse FAQ response: " ++ m
               ++ lit ". The API may have returned invalid JSON.")
  | Error m =>
      match m with
      | _ :: _ => Error (lit "OpenAI API error: " ++ m)
      | [] => error
      end
  | Undefined => Undefined
  end.

(** ** [generateFaqs] *)

Definition falsy (x : option jsstring) : bool :=
  match x with
  | Some (_ :: _) => false
  | _ => true
  end.

(** Lines 19-21. *)
Definition truncate_text (text : jsstring) : jsstring :=
  if (MAX_TEXT_LENGTH <? length text)%nat
  then firstn MAX_TEXT_LENGTH text ++ lit "..."
  else text.

(** Lines 29-67, the template literal; in the Rocq text an apostrophe
    stands for the double quote of the source. *)
Definition build_prompt (faqCount : nat) (truncatedText : jsstring)
  : jsstring :=
  lit "You are an expert content analyst. Analyze the following website content and generate EXACTLY "
  ++ show_nat faqCount
  ++ lit " high-quality, relevant frequently asked questions (FAQs) with clear, concise answers.

CRITICAL REQUIREMENT: You MUST generate exactly "
  ++ show_nat faqCount
  ++ lit " FAQs. No more, no less. If you generate "
  ++ show_nat (faqCount + 1) ++ lit " or " ++ show_nat (faqCount - 1)
  ++ lit ", the response will be invalid.

Content Analysis Guidelines:
1. Identify the main topics and key information in the content
2. Focus on questions that users would genuinely ask about this content
3. Ensure questions are specific, clear, and directly related to the content
4. Provide concise, accurate answers based solely on the provided content
5. Avoid generic or vague questions
6. Make sure each FAQ pair is unique and valuable

Content:
"
  ++ truncatedText
  ++ lit "

Requirements:
- Generate EXACTLY "
  ++ show_nat faqCount
  ++ qlit " FAQs (this is mandatory - count them before responding)
- Each FAQ must have a clear, specific question
- Each answer must be concise (2-4 sentences) and directly address the question
- Answers must be based only on the provided content
- Questions should cover different aspects of the content
- Use proper grammar and professional language
- The 'faqs' array must contain exactly "
  ++ show_nat faqCount
  ++ qlit " items

Return ONLY a valid JSON object in this exact format (no markdown, no code blocks, no explanations):
{
  'faqs': [
    {
      'question': 'What is the main purpose of this service?',
      'answer': 'The main purpose is to provide users with...'
    },
    {
      'question': 'How does this feature work?',
      'answer': 'This feature works by...'
    }
  ]
}

Remember: The 'faqs' array must contain exactly "
  ++ show_nat faqCount ++ lit " items.".

(** Lines 8-116, the body of the [try]. *)
Definition generateFaqs_try (E : env) (text : jsstring)
           (count : option number) : M (list json) :=
  if falsy (OPENAI_API_KEY E)
  then throw (Error (lit "OPENAI_API_KEY is not defined in environment variables"))
  else if falsy (Some text) || (length (trim text) =? 0)%nat
  then throw (Error (lit "Text content is required and cannot be empty"))
  else
    let faqCount := faqCount count in
    let truncatedText := truncate_text text in
    let prompt := build_prompt faqCount truncatedText in
    response <- makeOpenAIRequest E prompt 2 ;;
    faqs <- lift (parseFaqResponse E response) ;;
    lift (check_faqs faqCount faqs).

Definition generateFaqs (E : env) (text : jsstring)
           (count : option number) : M (list json) :=
  try_catch (generateFaqs_try E text count)
            (fun error => throw (surface error)).

End Synth.

(* ===================================================================== *)
(** * Properties of the whitespace normalization *)
(* ===================================================================== *)

Module Tidy.
Import JS Crawler.

(** The first character, if there is one, is no whitespace. *)
Definition starts_solid (s : jsstring) : Prop :=
  match s with
  | [] => True
  | d :: _ => is_space d = false
  end.

(** Every whitespace character of [s] is a space that stands alone: what
    follows it, if anything, is no whitespace. *)
Fixpoint tidy (s : jsstring) : Prop :=
  match s with
  | [] => True
  | c :: r => (is_space c = true -> c = SPACE /\ starts_solid r) /\ tidy r
  end.

(** No tab, no carriage return, no two spaces in a row. *)
Definition normalized (s : jsstring) : Prop :=
  ~ In TAB s /\ ~ In CR s /\ forall a b, s <> a ++ SPACE :: SPACE :: b.

(** No whitespace at either end. *)
Definition trimmed (s : jsstring) : Prop := trim s = s.

Lemma replace_all_skip m rep k s :
  replace_all m rep k s = replace_all m rep 0 (skipn k s).
Proof.
  revert k; induction s as [|c r IH]; intros [|k]; simpl; auto.
Qed.

Lemma skipn_span_solid p s :
  match skipn (span_length p s) s with
  | [] => True
  | d :: _ => p d = false
  end.
Proof.
  induction s as [|c r IH]; simpl; auto.
  destruct (p c) eqn:E; simpl; auto.
Qed.

Lemma replace_spaces_head s :
  starts_solid s -> starts_solid (replace_all re_spaces [SPACE] 0 s).
Proof.
  destruct s as [|d r]; simpl; auto.
  intros H. unfold re_spaces; simpl. rewrite H. simpl. exact H.
Qed.

Lemma replace_spaces_tidy_len n :
  forall s, (length s <= n)%nat -> tidy (replace_all re_spaces [SPACE] 0 s).
Proof.
  induction n as [|n IH]; intros [|c r] Hl; simpl in *; auto; try lia.
  unfold re_spaces; simpl.
  destruct (is_space c) eqn:Ec.
  - simpl. rewrite replace_all_skip. split.
    + intros _. split; [reflexivity|].
      apply replace_spaces_head.
      pose proof (skipn_span_solid is_space r) as H.
      destruct (skipn (span_length is_space r) r); simpl; auto.
    + apply IH. rewrite length_skipn. lia.
  - simpl. split.
    + intros H. rewrite H in Ec. discriminate.
    + apply IH. lia.
Qed.

Lemma replace_spaces_tidy s : tidy (replace_all re_spaces [SPACE] 0 s).
Proof. apply (replace_spaces_tidy_len (length s)). lia. Qed.

Lemma tidy_tail c r : tidy (c :: r) -> tidy r.
Proof. simpl. tauto. Qed.

(** A replacement that only ever rewrites one character into itself changes
    nothing. *)
Lemma replace_all_fixed m rep (P : jsstring -> Prop) :
  (forall c r, P (c :: r) -> P r) ->
  (forall t k, P t -> m t = Some (S k) -> k = 0%nat /\ rep = firstn 1 t) ->
  forall s, P s -> replace_all m rep 0 s = s.
Proof.
  intros Htl Hm. induction s as [|c r IH]; intros Hs; simpl; auto.
  destruct (m (c :: r)) as [[|k]|] eqn:Em.
  - f_equal. eapply IH, Htl, Hs.
  - destruct (Hm _ _ Hs Em) as [-> ->]. simpl. f_equal. eapply IH, Htl, Hs.
  - f_equal. eapply IH, Htl, Hs.
Qed.

Lemma span_one p c r :
  p c = true -> match r with [] => True | d :: _ => p d = false end ->
  span_length p (c :: r) = 1%nat.
Proof.
  intros Hc Hr. simpl. rewrite Hc. destruct r; simpl; auto. now rewrite Hr.
Qed.

Lemma tidy_spaces_fixed s :
  tidy s -> replace_all re_spaces [SPACE] 0 s = s.
Proof.
  apply replace_all_fixed with (P := tidy); [apply tidy_tail|].
  intros [|c r] k Ht; unfold re_spaces; [discriminate|].
  destruct (is_space c) eqn:Ec.
  - destruct Ht as [H _]. destruct (H Ec) as [-> Hr].
    rewrite span_one; auto.
    intros E; injection E as <-. auto.
  - simpl. rewrite Ec. discriminate.
Qed.

Lemma tidy_blank_lines_fixed s :
  tidy s -> replace_all re_blank_lines [LF] 0 s = s.
Proof.
  apply replace_all_fixed with (P := tidy); [apply tidy_tail|].
  intros [|c r] k Ht; unfold re_blank_lines; [discriminate|].
  destruct (N.eqb c LF) eqn:Ec; [|discriminate].
  apply N.eqb_eq in Ec; subst c.
  destruct Ht as [H _]. destruct (H eq_refl) as [E _]. discriminate E.
Qed.

Lemma tidy_cr_tab_fixed s :
  tidy s -> replace_all re_cr_tab [SPACE] 0 s = s.
Proof.
  apply replace_all_fixed with (P := tidy); [apply tidy_tail|].
  intros [|c r] k Ht; unfold re_cr_tab; [discriminate|].
  destruct (N.eqb c CR) eqn:E1.
  - apply N.eqb_eq in E1; subst c.
    destruct Ht as [H _]. destruct (H eq_refl) as [E _]. discriminate E.
  - destruct (N.eqb c TAB) eqn:E2; [|discriminate].
    apply N.eqb_eq in E2; subst c.
    destruct Ht as [H _]. destruct (H eq_refl) as [E _]. discriminate E.
Qed.

Lemma tidy_inline_fixed s :
  tidy s -> replace_all re_inline_spaces [SPACE] 0 s = s.
Proof.
  apply replace_all_fixed with (P := tidy); [apply tidy_tail|].
  intros [|c r] k Ht; unfold re_inline_spaces; [discriminate|].
  destruct (is_space c) eqn:Ec.
  - destruct Ht as [H _]. destruct (H Ec) as [-> Hr].
    rewrite span_one.
    + intros E; injection E as <-. auto.
    + reflexivity.
    + destruct r as [|d r]; auto. simpl in Hr. now rewrite Hr.
  - simpl. rewrite Ec. discriminate.
Qed.

Lemma trimStart_tidy s : tidy s -> tidy (trimStart s).
Proof.
  induction s as [|c r IH]; simpl; auto.
  intros [H Hr]. destruct (is_space c) eqn:E; simpl; auto.
  split; auto. intros E'. rewrite E' in E. discriminate.
Qed.

Lemma trimEnd_head s : starts_solid s -> starts_solid (trimEnd s).
Proof.
  destruct s as [|c r]; simpl; auto. intros H.
  destruct (trimEnd r); [rewrite H|]; exact H.
Qed.

Lemma trimEnd_nil_head s : trimEnd s = [] -> s = [] \/ ~ starts_solid s.
Proof.
  destruct s as [|c r]; simpl; auto. right.
  destruct (trimEnd r); [|discriminate].
  destruct (is_space c) eqn:E; [|discriminate]. congruence.
Qed.

Lemma trimEnd_tidy s : tidy s -> tidy (trimEnd s).
Proof.
  induction s as [|c r IH]; simpl; auto.
  intros [H Hr]. specialize (IH Hr).
  destruct (trimEnd r) as [|d r'] eqn:E.
  - destruct (is_space c) eqn:Ec; simpl; auto.
    split; auto. intros E'. rewrite E' in Ec. discriminate.
  - split; [|exact IH]. intros Hc. destruct (H Hc) as [-> Hs].
    split; auto. apply trimEnd_head in Hs. now rewrite E in Hs.
Qed.

Lemma trim_tidy s : tidy s -> tidy (trim s).
Proof. intros. apply trimEnd_tidy, trimStart_tidy. assumption. Qed.

Lemma trimStart_solid s : starts_solid (trimStart s).
Proof.
  induction s as [|c r IH]; simpl; auto.
  destruct (is_space c) eqn:E; simpl; auto.
Qed.

Lemma trimStart_fixed s : starts_solid s -> trimStart s = s.
Proof. destruct s as [|c r]; simpl; auto. now intros ->. Qed.

Lemma trimEnd_idem s : trimEnd (trimEnd s) = trimEnd s.
Proof.
  induction s as [|c r IH]; simpl; auto.
  destruct (trimEnd r) as [|d r'] eqn:E.
  - destruct (is_space c) eqn:Ec; simpl; auto. now rewrite Ec.
  - change (trimEnd (c :: d :: r'))
      with (match trimEnd (d :: r') with
            | [] => if is_space c then [] else [c]
            | x => c :: x end).
    rewrite IH. reflexivity.
Qed.

Lemma trim_idem s : trim (trim s) = trim s.
Proof.
  unfold trim. rewrite (trimStart_fixed (trimEnd (trimStart s))).
  - apply trimEnd_idem.
  - apply trimEnd_head, trimStart_solid.
Qed.

Lemma cleanText_spaces s :
  cleanText s = trim (replace_all re_spaces [SPACE] 0 s).
Proof.
  unfold cleanText.
  pose proof (replace_spaces_tidy s) as H.
  rewrite (tidy_blank_lines_fixed _ H), (tidy_cr_tab_fixed _ H),
    (tidy_inline_fixed _ H).
  reflexivity.
Qed.

Lemma cleanText_tidy s : tidy (cleanText s).
Proof. rewrite cleanText_spaces. apply trim_tidy, replace_spaces_tidy. Qed.

Lemma cleanText_trimmed s : trimmed (cleanText s).
Proof. unfold trimmed. rewrite cleanText_spaces. apply trim_idem. Qed.

Lemma tidy_cleanText s : tidy s -> cleanText s = trim s.
Proof.
  intros H. rewrite cleanText_spaces, tidy_spaces_fixed; auto.
Qed.

Lemma tidy_in_space c s : tidy s -> In c s -> is_space c = true -> c = SPACE.
Proof.
  induction s as [|d r IH]; simpl; [tauto|].
  intros [H Hr] [->|Hin] Hc; auto. now destruct (H Hc).
Qed.

Lemma tidy_no_pair s a b : tidy s -> s <> a ++ SPACE :: SPACE :: b.
Proof.
  revert s; induction a as [|x a IH]; intros s Ht E; subst s; simpl in Ht.
  - destruct Ht as [H _]. destruct (H eq_refl) as [_ Hs]. discriminate Hs.
  - destruct Ht as [_ Hr]. exact (IH _ Hr eq_refl).
Qed.

Lemma tidy_normalized s : tidy s -> normalized s.
Proof.
  intros H. repeat split.
  - intros Hin. pose proof (tidy_in_space _ _ H Hin eq_refl). discriminate.
  - intros Hin. pose proof (tidy_in_space _ _ H Hin eq_refl). discriminate.
  - intros a b. now apply tidy_no_pair.
Qed.

Lemma cleanText_normalized s : normalized (cleanText s).
Proof. apply tidy_normalized, cleanText_tidy. Qed.

End Tidy.

(* ===================================================================== *)
(** * What the normalization keeps *)
(* ===================================================================== *)

Module Solid.
Import JS Crawler Tidy.

Lemma skipn_span_keeps p c s :
  In c s -> p c = false -> In c (skipn (span_length p s) s).
Proof.
  induction s as [|d r IH]; simpl; auto.
  intros [->|H] Hc.
  - rewrite Hc. simpl. auto.
  - destruct (p d); simpl; auto.
Qed.

Lemma replace_spaces_keeps_len n c :
  is_space c = false ->
  forall s, (length s <= n)%nat -> In c s ->
            In c (replace_all re_spaces [SPACE] 0 s).
Proof.
  intros Hc. induction n as [|n IH]; intros [|d r] Hl Hin; simpl in *;
    try tauto; try lia.
  unfold re_spaces. simpl. destruct (is_space d) eqn:Ed.
  - simpl. right. rewrite replace_all_skip. apply IH.
    + rewrite length_skipn. lia.
    + apply skipn_span_keeps; auto.
      destruct Hin as [->|H]; [congruence|assumption].
  - simpl. destruct Hin as [->|H]; auto. right. apply IH; auto. lia.
Qed.

Lemma trimStart_keeps c s :
  is_space c = false -> In c s -> In c (trimStart s).
Proof.
  intros Hc. induction s as [|d r IH]; simpl; auto.
  intros [->|H].
  - rewrite Hc. simpl. auto.
  - destruct (is_space d); simpl; auto.
Qed.

Lemma trimEnd_keeps c s :
  is_space c = false -> In c s -> In c (trimEnd s).
Proof.
  intros Hc. induction s as [|d r IH]; simpl; auto.
  intros [->|H].
  - destruct (trimEnd r); [rewrite Hc|]; simpl; auto.
  - specialize (IH H). destruct (trimEnd r); simpl in *; tauto.
Qed.

(** Normalization keeps every character that is no whitespace. *)
Lemma cleanText_keeps c s :
  is_space c = false -> In c s -> In c (cleanText s).
Proof.
  intros Hc H. rewrite cleanText_spaces.
  apply trimEnd_keeps, trimStart_keeps; auto.
  apply (replace_spaces_keeps_len (length s)); auto.
Qed.

Lemma trimStart_blank s :
  (forall c, In c s -> is_space c = true) -> trimStart s = [].
Proof.
  induction s as [|d r IH]; simpl; auto. intros H.
  rewrite (H d) by auto. apply IH. auto.
Qed.

Lemma cleanText_nil_blank s : cleanText s = [] -> trim s = [].
Proof.
  intros H. unfold trim. rewrite trimStart_blank; auto.
  intros c Hin. destruct (is_space c) eqn:Ec; auto.
  pose proof (cleanText_keeps c s Ec Hin) as K. rewrite H in K. destruct K.
Qed.

Lemma trim_nil_trim s : trim s = [] -> trim (trim s) = [].
Proof. intros ->. reflexivity. Qed.

End Solid.

(* ===================================================================== *)
(** * Properties of the noise removal *)
(* ===================================================================== *)

Module Noise.
Import JS Crawler.



Section NodeInduction.

Variable P : node -> Prop.
Hypothesis P_text : forall data, P (Text data).
Hypothesis P_comment : forall data, P (Comment data).
Hypothesis P_element :
  forall name attribs children,
    Forall P children -> P (Element name attribs children).


End NodeInduction.












End Noise.

(* ===================================================================== *)
(** * Properties of the synthesizer *)
(* ===================================================================== *)

Module Count.
Import JS Json Synth.

(** The clamp of the specification, on integers. *)
Definition clamp (z lo hi : Z) : Z := Z.min (Z.max z lo) hi.

Lemma leb_inject a b : Qle_bool (inject_Z a) (inject_Z b) = (a <=? b)%Z.
Proof. unfold Qle_bool, inject_Z; simpl. now rewrite !Z.mul_1_r. Qed.

Lemma eqb_inject a b : Qeq_bool (inject_Z a) (inject_Z b) = (a =? b)%Z.
Proof.
  unfold Qeq_bool, inject_Z; simpl. now rewrite !Z.mul_1_r.
Qed.

(** Line 16 on an integral number. *)
Lemma faqCount_of_integer z :
  Math_min
    (Math_max (or_default (Fin (inject_Z z)) DEFAULT_FAQ_COUNT) (Fin 5))
    (Fin 10)
  = Fin (inject_Z (clamp z 5 10)).
Proof.
  unfold or_default, number_truthy, DEFAULT_FAQ_COUNT, clamp.
  change 0%Q with (inject_Z 0). rewrite eqb_inject.
  change (Fin 5) with (Fin (inject_Z 5)).
  change (Fin 10) with (Fin (inject_Z 10)).
  destruct (z =? 0)%Z eqn:E0; simpl.
  - apply Z.eqb_eq in E0. subst z. reflexivity.
  - rewrite leb_inject. destruct (z <=? 5)%Z eqn:E5.
    + simpl. apply Z.leb_le in E5.
      rewrite Z.max_r, Z.min_l by lia. reflexivity.
    + unfold Math_min, number_leb. rewrite leb_inject. apply Z.leb_gt in E5.
      destruct (z <=? 10)%Z eqn:E10.
      * apply Z.leb_le in E10. rewrite Z.max_l, Z.min_l by lia. reflexivity.
      * apply Z.leb_gt in E10. rewrite Z.max_l, Z.min_r by lia. reflexivity.
Qed.

Lemma faqCount_number_cases count :
  faqCount_number count =
  match count with
  | Some (Fin q) => Fin (inject_Z (clamp (Qfloor q) 5 10))
  | Some (Inf false) => Fin 10
  | Some (Inf true) | Some NaN | None => Fin 5
  end.
Proof.
  destruct count as [[| [|] |q]|]; try reflexivity.
  unfold faqCount_number, Math_floor. apply faqCount_of_integer.
Qed.

Lemma Qfloor_inject z : Qfloor (inject_Z z) = z.
Proof. unfold Qfloor, inject_Z. simpl. apply Z.div_1_r. Qed.

Lemma faqCount_cases count :
  Z.of_nat (faqCount count) =
  match count with
  | Some (Fin q) => clamp (Qfloor q) 5 10
  | Some (Inf false) => 10
  | Some (Inf true) | Some NaN | None => 5
  end%Z.
Proof.
  unfold faqCount. rewrite faqCount_number_cases.
  destruct count as [[| [|] |q]|]; try reflexivity.
  unfold number_to_nat. rewrite Qfloor_inject.
  unfold clamp. lia.
Qed.

Lemma faqCount_range count : (5 <= faqCount count <= 10)%nat.
Proof.
  pose proof (faqCount_cases count) as H.
  destruct count as [[| [|] |q]|]; unfold clamp in H; lia.
Qed.

Lemma faqCount_exact count :
  faqCount_number count = Fin (inject_Z (Z.of_nat (faqCount count))).
Proof.
  rewrite faqCount_cases, faqCount_number_cases.
  destruct count as [[| [|] |q]|]; reflexivity.
Qed.

End Count.

Module Retry.
Import JS Json Synth.

(** The world after [n] more requests and the delays [ds]. *)
Definition after (w : world) (n : nat) (ds : list Z) : world :=
  {| requests := requests w + n; sleeps := sleeps w ++ ds |}.

(** The prompt [generateFaqs] sends for a text and a count. *)
Definition prompt_of (text : jsstring) (count : option number) : jsstring :=
  build_prompt (faqCount count) (truncate_text text).

(** What [makeOpenAIRequest] does with two retries, spelled out over the
    provider's answers to the next three requests. *)
Definition three_attempts (E : env) (prompt : jsstring) (w : world)
  : (exn + completion) * world :=
  let n := requests w in
  match provider E prompt n with
  | inr c => (inr c, after w 1 [])
  | inl e1 =>
      if client_error (ApiError e1) then (inl (ApiError e1), after w 1 [])
      else
        match provider E prompt (S n) with
        | inr c => (inr c, after w 2 [1000%Z])
        | inl e2 =>
            if client_error (ApiError e2)
            then (inl (ApiError e2), after w 2 [1000%Z])
            else
              match provider E prompt (S (S n)) with
              | inr c => (inr c, after w 3 [1000%Z; 2000%Z])
              | inl e3 => (inl (ApiError e3), after w 3 [1000%Z; 2000%Z])
              end
        end
  end.

(** The text is a non-blank string and a key is configured. *)
Definition ready (E : env) (text : jsstring) : bool :=
  negb (falsy (OPENAI_API_KEY E))
  && negb (falsy (Some text) || (length (trim text) =? 0)%nat).

(** What [generateFaqs] makes of the completion [c]. *)
Definition finish (E : env) (count : option number) (c : completion)
  : exn + list json :=
  match parseFaqResponse E c with
  | inl e => inl (surface e)
  | inr faqs =>
      match check_faqs (faqCount count) faqs with
      | inl e => inl (surface e)
      | inr res => inr res
      end
  end.

Lemma after_eq w n ds r s :
  r = (requests w + n)%nat -> s = sleeps w ++ ds ->
  {| requests := r; sleeps := s |} = after w n ds.
Proof. intros -> ->. reflexivity. Qed.

Lemma makeOpenAIRequest_table E prompt w :
  makeOpenAIRequest E prompt 2 w = three_attempts E prompt w.
Proof.
  unfold makeOpenAIRequest, three_attempts, request_loop, try_catch, create,
    bind, sleep, throw; simpl.
  destruct w as [n sl]; simpl.
  destruct (provider E prompt n) as [e1|c1]; simpl.
  2:{ f_equal. apply after_eq; simpl; [lia|now rewrite app_nil_r]. }
  destruct (match status e1 with Some s => _ | None => false end); simpl.
  { f_equal. apply after_eq; simpl; [lia|now rewrite app_nil_r]. }
  destruct (provider E prompt (S n)) as [e2|c2]; simpl.
  2:{ f_equal. apply after_eq; simpl; [lia|reflexivity]. }
  destruct (match status e2 with Some s => _ | None => false end); simpl.
  { f_equal. apply after_eq; simpl; [lia|reflexivity]. }
  destruct (provider E prompt (S (S n))) as [e3|c3]; simpl.
  2:{ f_equal. apply after_eq; simpl; [lia|now rewrite <- app_assoc]. }
  destruct (match status e3 with Some s => _ | None => false end); simpl.
  - f_equal. apply after_eq; simpl; [lia|now rewrite <- app_assoc].
  - f_equal. apply after_eq; simpl; [lia|now rewrite <- app_assoc].
Qed.

(** The request loop throws what the provider threw. *)
Lemma makeOpenAIRequest_throws E prompt w e w' :
  makeOpenAIRequest E prompt 2 w = (inl e, w') -> exists a, e = ApiError a.
Proof.
  rewrite makeOpenAIRequest_table. unfold three_attempts.
  repeat match goal with
         | |- context [match provider E prompt ?n with _ => _ end] =>
             destruct (provider E prompt n)
         | |- context [if ?b then _ else _] => destruct b
         end; intros H; inversion H; eauto.
Qed.

Lemma generateFaqs_ready E text count w :
  ready E text = true ->
  generateFaqs E text count w =
  match makeOpenAIRequest E (prompt_of text count) 2 w with
  | (inr c, w') => (finish E count c, w')
  | (inl e, w') => (inl (surface e), w')
  end.
Proof.
  unfold ready, generateFaqs, generateFaqs_try, try_catch.
  destruct (falsy (OPENAI_API_KEY E)); [discriminate|].
  destruct (falsy (Some text) || _); [discriminate|]. intros _.
  unfold bind, lift, finish, throw. cbv zeta.
  change (build_prompt (faqCount count) (truncate_text text))
    with (prompt_of text count).
  destruct (makeOpenAIRequest E (prompt_of text count) 2 w) as [[e|c] w'];
    auto.
  destruct (parseFaqResponse E c) as [e|faqs]; auto.
  destruct (check_faqs (faqCount count) faqs) as [e|res]; auto.
Qed.

Lemma generateFaqs_not_ready E text count w :
  ready E text = false -> exists e, generateFaqs E text count w = (inl e, w).
Proof.
  unfold ready, generateFaqs, generateFaqs_try, try_catch, throw.
  destruct (falsy (OPENAI_API_KEY E)); [eauto|].
  destruct (falsy (Some text) || _); [eauto|discriminate].
Qed.

Lemma generateFaqs_success E text count w res w' :
  generateFaqs E text count w = (inr res, w') ->
  ready E text = true /\
  exists c faqs,
    makeOpenAIRequest E (prompt_of text count) 2 w = (inr c, w')
    /\ parseFaqResponse E c = inr faqs
    /\ check_faqs (faqCount count) faqs = inr res.
Proof.
  intros H. destruct (ready E text) eqn:R.
  - split; auto. rewrite generateFaqs_ready in H by assumption.
    destruct (makeOpenAIRequest E (prompt_of text count) 2 w) as [[e|c] w1]; [discriminate|].
    unfold finish in H.
    destruct (parseFaqResponse E c) as [e|faqs] eqn:P; [discriminate|].
    destruct (check_faqs (faqCount count) faqs) as [e|r] eqn:C;
      [discriminate|].
    inversion H; subst. exists c, faqs. auto.
  - destruct (generateFaqs_not_ready E text count w R) as [e He].
    rewrite He in H. discriminate.
Qed.

End Retry.

Module Validate.
Import JS Json Synth.

(** An item the loop of lines 83-101 lets pass. *)
Definition valid_faq (faq : json) : bool :=
  is_object faq
  && valid_text (get_member faq (lit "question"))
  && valid_text (get_member faq (lit "answer")).


(** What the catch block makes of an [Error] with a message. *)
Definition wrapped (m : jsstring) : exn :=
  Error (lit "OpenAI API error: " ++ m).

Lemma surface_Error m : m <> [] -> surface (Error m) = wrapped m.
Proof. destruct m; [congruence|reflexivity]. Qed.


Lemma msg_deficit_nonempty n got : msg_deficit n got <> [].
Proof. unfold msg_deficit. discriminate. Qed.

Lemma validate_from_valid items :
  forallb valid_faq items = true ->
  forall i, validate_from i items = inr (map trim_faq items).
Proof.
  induction items as [|faq rest IH]; simpl; auto.
  intros H i. apply andb_true_iff in H as [Hf Hr].
  unfold valid_faq in Hf.
  apply andb_true_iff in Hf as [Hf Ha]. apply andb_true_iff in Hf as [Ho Hq].
  rewrite Ho, Hq, Ha. simpl. now rewrite IH.
Qed.

Lemma validate_from_inr items :
  forall i res,
    validate_from i items = inr res ->
    forallb valid_faq items = true /\ res = map trim_faq items.
Proof.
  induction items as [|faq rest IH]; simpl; intros i res H.
  - inversion H. auto.
  - unfold valid_faq.
    destruct (is_object faq); simpl in *; [|discriminate].
    destruct (valid_text (get_member faq (lit "question"))); simpl in *;
      [|discriminate].
    destruct (valid_text (get_member faq (lit "answer"))); simpl in *;
      [|discriminate].
    destruct (validate_from (S i) rest) as [e|rest'] eqn:V; [discriminate|].
    destruct (IH _ _ V) as [Hv ->]. inversion H. auto.
Qed.



Lemma check_faqs_inr n faqs res :
  check_faqs n faqs = inr res ->
  exists items,
    faqs = JArray items
    /\ forallb valid_faq items = true
    /\ res = firstn n (map trim_faq items)
    /\ length res = n.
Proof.
  unfold check_faqs. destruct faqs as [| | | |items|]; try discriminate.
  destruct (length items =? 0)%nat; [discriminate|].
  destruct (validate_from 0 items) as [e|fs] eqn:V; [discriminate|].
  destruct (validate_from_inr _ _ _ V) as [Hv ->].
  intros H. exists items. split; [reflexivity|]. split; [assumption|].
  destruct (n <? length (map trim_faq items))%nat eqn:L.
  - apply Nat.ltb_lt in L.
    destruct (length (firstn n (map trim_faq items)) =? n)%nat eqn:Q;
      simpl in H; [|discriminate].
    inversion H. apply Nat.eqb_eq in Q. auto.
  - apply Nat.ltb_ge in L.
    destruct (length (map trim_faq items) <? n)%nat eqn:L';
      [discriminate|].
    destruct (length (map trim_faq items) =? n)%nat eqn:Q;
      simpl in H; [|discriminate].
    inversion H. apply Nat.eqb_eq in Q.
    rewrite firstn_all2 by lia. auto.
Qed.

Lemma check_faqs_excess n items :
  forallb valid_faq items = true ->
  (n < length items)%nat ->
  check_faqs n (JArray items) = inr (firstn n (map trim_faq items)).
Proof.
  intros Hv Hl. unfold check_faqs.
  destruct (length items =? 0)%nat eqn:Z; [apply Nat.eqb_eq in Z; lia|].
  rewrite (validate_from_valid _ Hv), length_map.
  apply Nat.ltb_lt in Hl as Hl'. rewrite Hl'.
  rewrite length_firstn, length_map, Nat.min_l by lia.
  now rewrite Nat.eqb_refl.
Qed.

Lemma check_faqs_deficit n items :
  forallb valid_faq items = true ->
  items <> [] ->
  (length items < n)%nat ->
  check_faqs n (JArray items)
  = inl (Error (msg_deficit n (length items))).
Proof.
  intros Hv Hne Hl. unfold check_faqs.
  destruct (length items =? 0)%nat eqn:Z.
  { apply Nat.eqb_eq in Z. destruct items; [congruence|discriminate]. }
  rewrite (validate_from_valid _ Hv), length_map.
  destruct (n <? length items)%nat eqn:L; [apply Nat.ltb_lt in L; lia|].
  apply Nat.ltb_lt in Hl. now rewrite Hl.
Qed.

Lemma check_faqs_short_fails n items :
  (length items < n)%nat -> exists e, check_faqs n (JArray items) = inl e.
Proof.
  intros Hl. destruct (check_faqs n (JArray items)) as [e|res] eqn:C;
    [eauto|].
  destruct (check_faqs_inr _ _ _ C) as (items' & E & _ & -> & Hlen).
  inversion E; subst items'.
  rewrite length_firstn, length_map in Hlen. lia.
Qed.


End Validate.

(* ===================================================================== *)
(** * The fuel of the JSON parser *)
(* ===================================================================== *)

Module JsonFuel.
Import JS Json.

Lemma skip_ws_length s : (length (skip_ws s) <= length s)%nat.
Proof.
  induction s as [|c r IH]; simpl; auto.
  destruct (json_ws c); simpl; lia.
Qed.

Lemma skip_ws_cons s c r :
  skip_ws s = c :: r -> (length r < length s)%nat.
Proof.
  intros H. pose proof (skip_ws_length s) as L. rewrite H in L.
  simpl in L. lia.
Qed.

Lemma strip_prefix_length p :
  forall s r, strip_prefix p s = Some r ->
              length s = (length p + length r)%nat.
Proof.
  induction p as [|a p IH]; intros [|b s] r H; simpl in *;
    try (inversion H; reflexivity); try discriminate.
  destruct (N.eqb a b); [|discriminate]. now rewrite (IH _ _ H).
Qed.

Lemma parse_string_body_shorter n :
  forall s acc x r,
    (length s <= n)%nat ->
    parse_string_body acc s = Some (x, r) -> (length r < length s)%nat.
Proof.
  induction n as [|n IH]; intros [|c s] acc x r Hl H; simpl in *;
    try discriminate; try lia.
  destruct (N.eqb c 34). { inversion H; subst. lia. }
  destruct (N.eqb c 92).
  - destruct s as [|e s']; [discriminate|]. simpl in Hl.
    destruct ((N.eqb e 34 || N.eqb e 92 || N.eqb e 47)%bool).
    { apply IH in H; simpl; lia. }
    repeat match type of H with
           | (if N.eqb e ?k then _ else _) = _ =>
               destruct (N.eqb e k);
               [try (apply IH in H; simpl; lia)|]
           end; try discriminate.
    destruct s' as [|a [|b [|c' [|d s'']]]]; try discriminate.
    destruct (hex_val a), (hex_val b), (hex_val c'), (hex_val d);
      try discriminate.
    simpl in Hl. apply IH in H; simpl; lia.
  - destruct (N.ltb c 32); [discriminate|].
    apply IH in H; simpl; lia.
Qed.

Lemma skipn_shorter k (l : jsstring) :
  (length (skipn k l) <= length l)%nat.
Proof. rewrite length_skipn. lia. Qed.

Lemma parse_number_shorter s lx r :
  parse_number s = Some (lx, r) -> (length r < length s)%nat.
Proof.
  unfold parse_number.
  set (p := match s with
            | c :: r0 => if N.eqb c 45 then ([c], r0) else ([], s)
            | [] => ([], s)
            end).
  assert (Hp : (length (snd p) <= length s)%nat).
  { subst p. destruct s as [|c r0]; simpl; auto.
    destruct (N.eqb c 45); simpl; lia. }
  destruct p as [sign s1]. simpl in Hp.
  set (ip := match s1 with
             | c :: r0 => _
             | [] => None
             end).
  assert (Hi : forall a s2, ip = Some (a, s2) ->
                            (length s2 < length s1)%nat).
  { subst ip. destruct s1 as [|c r0]; [discriminate|]. intros a s2.
    destruct (N.eqb c 48). { intros E; inversion E; subst. simpl; lia. }
    destruct (is_digit c) eqn:D; [|discriminate].
    intros E; injection E as <- <-. rewrite length_skipn.
    simpl. rewrite D. simpl. lia. }
  destruct ip as [[a s2]|]; [|discriminate].
  specialize (Hi _ _ eq_refl).
  set (fr := match s2 with
             | c :: r0 => _
             | [] => Some ([], s2)
             end).
  assert (Hf : forall b s3, fr = Some (b, s3) ->
                            (length s3 <= length s2)%nat).
  { subst fr. destruct s2 as [|c r0].
    - intros b s3 E; inversion E; subst; simpl; lia.
    - intros b s3. destruct (N.eqb c 46).
      + destruct (span_length is_digit r0); [discriminate|].
        intros E; injection E as <- <-.
        pose proof (skipn_shorter (S n) r0) as K. simpl in *. lia.
      + intros E; inversion E; subst; simpl; lia. }
  destruct fr as [[b s3]|]; [|discriminate].
  specialize (Hf _ _ eq_refl).
  set (ex := match s3 with
             | c :: r0 => _
             | [] => Some ([], s3)
             end).
  assert (He : forall e s4, ex = Some (e, s4) ->
                            (length s4 <= length s3)%nat).
  { subst ex. destruct s3 as [|c r0].
    - intros e s4 E; inversion E; subst; simpl; lia.
    - intros e s4. destruct ((N.eqb c 101 || N.eqb c 69)%bool).
      + set (q := match r0 with
                  | d :: r' => _
                  | [] => ([], r0)
                  end).
        assert (Hq : (length (snd q) <= length r0)%nat).
        { subst q. destruct r0 as [|d r']; simpl; auto.
          destruct ((N.eqb d 43 || N.eqb d 45)%bool); simpl; lia. }
        destruct q as [es r1]. simpl in Hq.
        destruct (span_length is_digit r1); [discriminate|].
        intros E; injection E as <- <-.
        pose proof (skipn_shorter (S n) r1) as K. simpl in *. lia.
      + intros E; inversion E; subst; simpl; lia. }
  destruct ex as [[e s4]|]; [|discriminate].
  specialize (He _ _ eq_refl).
  intros E; inversion E; subst. lia.
Qed.

Lemma parse_word_shorter s v r :
  parse_word s = Some (v, r) -> (length r < length s)%nat.
Proof.
  unfold parse_word.
  destruct (strip_prefix (lit "true") s) eqn:T.
  { intros E; inversion E; subst. apply strip_prefix_length in T.
    rewrite T. simpl. lia. }
  destruct (strip_prefix (lit "false") s) eqn:F.
  { intros E; inversion E; subst. apply strip_prefix_length in F.
    rewrite F. simpl. lia. }
  destruct (strip_prefix (lit "null") s) eqn:U.
  { intros E; inversion E; subst. apply strip_prefix_length in U.
    rewrite U. simpl. lia. }
  destruct (parse_number s) as [[lx r']|] eqn:P; [|discriminate].
  intros E; inversion E; subst. eapply parse_number_shorter; eauto.
Qed.

Lemma parse_string_shorter acc s x r :
  parse_string_body acc s = Some (x, r) -> (length r < length s)%nat.
Proof. apply (parse_string_body_shorter (length s)). lia. Qed.

(** A successful parse consumes at least one character. *)
Lemma parse_shorter f :
  (forall s v r, parse_value f s = Some (v, r) ->
                 (length r < length s)%nat)
  /\ (forall acc s v r, parse_elements f acc s = Some (v, r) ->
                        (length r < length s)%nat)
  /\ (forall acc s v r, parse_members f acc s = Some (v, r) ->
                        (length r < length s)%nat).
Proof.
  induction f as [|f (IHv & IHe & IHm)].
  { repeat split; intros; discriminate. }
  split; [|split].
  - intros s v r H. simpl in H.
    destruct (skip_ws s) as [|c l] eqn:W; [discriminate|].
    pose proof (skip_ws_cons _ _ _ W) as Lw.
    destruct (N.eqb c 123).
    { destruct (skip_ws l) as [|c' l'] eqn:W'; [discriminate|].
      pose proof (skip_ws_cons _ _ _ W').
      destruct (N.eqb c' 125).
      - injection H as <- <-. lia.
      - apply IHm in H. lia. }
    destruct (N.eqb c 91).
    { destruct (skip_ws l) as [|c' l'] eqn:W'; [discriminate|].
      pose proof (skip_ws_cons _ _ _ W').
      destruct (N.eqb c' 93).
      - injection H as <- <-. lia.
      - apply IHe in H. lia. }
    destruct (N.eqb c 34).
    { destruct (parse_string_body [] l) as [[x r']|] eqn:P; [|discriminate].
      apply parse_string_shorter in P. injection H as <- <-. lia. }
    apply parse_word_shorter in H. simpl in H. lia.
  - intros acc s v r H. simpl in H.
    destruct (parse_value f s) as [[v' r']|] eqn:P; [|discriminate].
    apply IHv in P.
    destruct (skip_ws r') as [|c l] eqn:W; [discriminate|].
    pose proof (skip_ws_cons _ _ _ W).
    destruct (N.eqb c 44); [apply IHe in H; lia|].
    destruct (N.eqb c 93); [|discriminate].
    injection H as <- <-. lia.
  - intros acc s v r H. simpl in H.
    destruct (skip_ws s) as [|c l] eqn:W; [discriminate|].
    pose proof (skip_ws_cons _ _ _ W).
    destruct (N.eqb c 34); [|discriminate].
    destruct (parse_string_body [] l) as [[k r1]|] eqn:P; [|discriminate].
    apply parse_string_shorter in P.
    destruct (skip_ws r1) as [|c1 r2] eqn:W1; [discriminate|].
    pose proof (skip_ws_cons _ _ _ W1).
    destruct (N.eqb c1 58); [|discriminate].
    destruct (parse_value f r2) as [[v' r3]|] eqn:P2; [|discriminate].
    apply IHv in P2.
    destruct (skip_ws r3) as [|c3 r4] eqn:W3; [discriminate|].
    pose proof (skip_ws_cons _ _ _ W3).
    destruct (N.eqb c3 44); [apply IHm in H; lia|].
    destruct (N.eqb c3 125); [|discriminate].
    injection H as <- <-. lia.
Qed.

(** One unit of fuel more changes nothing once the fuel is twice the
    length of the text. *)
Lemma parse_stable f :
  (forall s, (2 * length s + 1 <= f)%nat ->
             parse_value (S f) s = parse_value f s)
  /\ (forall acc s, (2 * length s + 2 <= f)%nat ->
                    parse_elements (S f) acc s = parse_elements f acc s)
  /\ (forall acc s, (2 * length s + 2 <= f)%nat ->
                    parse_members (S f) acc s = parse_members f acc s).
Proof.
  induction f as [|f (IHv & IHe & IHm)].
  { repeat split; intros; lia. }
  destruct (parse_shorter f) as (Sv & _ & _).
  split; [|split].
  - intros s L.
    change (parse_value (S (S f)) s) with
      (match skip_ws s with
       | [] => None
       | c :: r =>
           if (c =? 123)%N then
             match skip_ws r with
             | c' :: r' =>
                 if (c' =? 125)%N then Some (JObject [], r')
                 else parse_members (S f) [] r
             | [] => None
             end
           else if (c =? 91)%N then
             match skip_ws r with
             | c' :: r' =>
                 if (c' =? 93)%N then Some (JArray [], r')
                 else parse_elements (S f) [] r
             | [] => None
             end
           else if (c =? 34)%N then
             match parse_string_body [] r with
             | Some (str, r') => Some (JString str, r')
             | None => None
             end
           else parse_word (c :: r)
       end).
    simpl (parse_value (S f) s).
    destruct (skip_ws s) as [|c l] eqn:W; [reflexivity|].
    pose proof (skip_ws_cons _ _ _ W).
    rewrite IHm, IHe by lia. reflexivity.
  - intros acc s L.
    change (parse_elements (S (S f)) acc s) with
      (match parse_value (S f) s with
       | None => None
       | Some (v, r) =>
           match skip_ws r with
           | c :: r' =>
               if (c =? 44)%N then parse_elements (S f) (v :: acc) r'
               else if (c =? 93)%N then Some (JArray (rev (v :: acc)), r')
               else None
           | [] => None
           end
       end).
    simpl (parse_elements (S f) acc s).
    rewrite IHv by lia.
    destruct (parse_value f s) as [[v r]|] eqn:P; [|reflexivity].
    apply Sv in P.
    destruct (skip_ws r) as [|c r'] eqn:W; [reflexivity|].
    pose proof (skip_ws_cons _ _ _ W).
    rewrite IHe by lia. reflexivity.
  - intros acc s L.
    change (parse_members (S (S f)) acc s) with
      (match skip_ws s with
       | c :: r =>
           if (c =? 34)%N then
             match parse_string_body [] r with
             | Some (k, r1) =>
                 match skip_ws r1 with
                 | c1 :: r2 =>
                     if (c1 =? 58)%N then
                       match parse_value (S f) r2 with
                       | Some (v, r3) =>
                           match skip_ws r3 with
                           | c3 :: r4 =>
                               if (c3 =? 44)%N
                               then parse_members (S f) (set_prop k v acc) r4
                               else if (c3 =? 125)%N
                                    then Some (JObject (set_prop k v acc), r4)
                                    else None
                           | [] => None
                           end
                       | None => None
                       end
                     else None
                 | [] => None
                 end
             | None => None
             end
           else None
       | [] => None
       end).
    simpl (parse_members (S f) acc s).
    destruct (skip_ws s) as [|c l] eqn:W; [reflexivity|].
    pose proof (skip_ws_cons _ _ _ W).
    destruct (N.eqb c 34); [|reflexivity].
    destruct (parse_string_body [] l) as [[k r1]|] eqn:P; [|reflexivity].
    apply parse_string_shorter in P.
    destruct (skip_ws r1) as [|c1 r2] eqn:W1; [reflexivity|].
    pose proof (skip_ws_cons _ _ _ W1).
    destruct (N.eqb c1 58); [|reflexivity].
    rewrite IHv by lia.
    destruct (parse_value f r2) as [[v r3]|] eqn:P2; [|reflexivity].
    apply Sv in P2.
    destruct (skip_ws r3) as [|c3 r4] eqn:W3; [reflexivity|].
    pose proof (skip_ws_cons _ _ _ W3).
    rewrite IHm by lia. reflexivity.
Qed.

(** [JSON_parse] does not depend on its fuel: any larger amount gives the
    same value or the same refusal. *)
Lemma parse_value_fuel s n :
  (2 * length s + 2 <= n)%nat ->
  parse_value n s = parse_value (2 * length s + 2) s.
Proof.
  induction 1 as [|n L IH]; [reflexivity|].
  rewrite <- IH. apply (proj1 (parse_stable n)). lia.
Qed.

End JsonFuel.

(* ===================================================================== *)
(** * Scenarios *)
(* ===================================================================== *)

Module Scenarios.
Import JS Json Crawler Synth.

Definition el (name : string) (children : list node) : node :=
  Element (lit name) [] children.

(** The page of the specification's extraction scenario. *)
Definition page_article : document :=
  [ el "html"
      [ el "head" [ el "title" [Text (lit "T")] ];
        el "body"
          [ el "script" [Text (lit "x")];
            el "article"
              [ el "h1" [Text (lit "H")];
                el "p" [Text (lit "This paragraph is definitely long enough.")]
              ] ] ] ].

(** A paragraph of 27 characters, 25 of them spaces in a row. *)
Definition page_spaced : document :=
  [ el "html"
      [ el "head" [];
        el "body" [ el "p" [Text (lit "a                         b")] ] ] ].

(** No title, no heading, and a social title that is one space. *)
Definition page_blank_social_title : document :=
  [ el "html"
      [ el "head"
          [ Element (lit "meta")
                    [(lit "property", lit "og:title"); (lit "content", lit " ")]
                    [] ];
        el "body" [] ] ].

(** A paragraph of 37 characters inside a footer. *)
Definition page_footer_paragraph : document :=
  [ el "html"
      [ el "head" [];
        el "body"
          [ el "footer"
              [ el "p" [Text (lit "A paragraph of thirty-seven characters")]
              ] ] ] ].


Definition site : jsstring := lit "https://example.com".

(** The text of one item, [k] telling the items apart. *)
Definition item_text (k : nat) : jsstring :=
  qlit "{'question':'Q" ++ show_nat k ++ qlit "','answer':'A"
       ++ show_nat k ++ qlit "'}".

Definition item (k : nat) : json :=
  JObject [ (lit "question", JString (lit "Q" ++ show_nat k));
            (lit "answer", JString (lit "A" ++ show_nat k)) ].

Fixpoint items_text (k n : nat) : jsstring :=
  match n with
  | O => []
  | S O => item_text k
  | S n' => item_text k ++ qlit "," ++ items_text (S k) n'
  end.

(** An object with [n] well-formed items in [faqs]. *)
Definition faqs_text (n : nat) : jsstring :=
  qlit "{'faqs':[" ++ items_text 1 n ++ qlit "]}".

(** The same inside a json fence. *)
Definition fenced_text (n : nat) : jsstring :=
  qlit "```json|" ++ faqs_text n ++ qlit "|```".


(** An answer with the array between two pieces of prose. *)
Definition prose_text : jsstring :=
  lit "Here are the FAQs: [" ++ items_text 1 5 ++ lit "] Enjoy!".

(** An answer that decodes, to an object that has its items under another
    name. *)
Definition misnamed_text : jsstring :=
  qlit "{'items':[" ++ items_text 1 5 ++ qlit "]}".

(** Two arrays in one answer. *)
Definition two_arrays_text : jsstring :=
  lit "[" ++ item_text 1 ++ lit "] and [" ++ item_text 2 ++ lit "]".

Definition failure (code : Z) : api_error :=
  {| status := Some code; response := None;
     message := Some (lit "request failed") |}.

Definition engine_message (s : jsstring) : jsstring :=
  lit "Unexpected token".

(** A provider that answers every request with [text]. *)
Definition answering (text : jsstring) : env :=
  {| OPENAI_API_KEY := Some (lit "sk-test");
     provider := fun _ _ => inr {| content := Some text |};
     syntax_error_message := engine_message |}.


(** A provider that always fails with [code]. *)
Definition always_failing (code : Z) : env :=
  {| OPENAI_API_KEY := Some (lit "sk-test");
     provider := fun _ _ => inl (failure code);
     syntax_error_message := engine_message |}.

Definition some_text : jsstring := lit "Some page text to ask about.".

Definition items_from (k n : nat) : list json := map item (seq k n).

End Scenarios.

(* ===================================================================== *)
(** * The extractor's properties *)
(* ===================================================================== *)

Module ExtractorSpec.
Import JS Crawler Tidy Solid Noise Scenarios.



(** The specification's extraction scenario: the script's text is in no
    field. *)
Lemma article_scenario :
  let r := extract site page_article in
  title r = lit "T"
  /\ h1 (headings r) = [lit "H"]
  /\ paragraphs r = [lit "This paragraph is definitely long enough."]
  /\ cleanedText r = lit "HThis paragraph is definitely long enough."
  /\ ~ In 120%N (cleanedText r).
Proof.
  vm_compute. repeat split; try reflexivity.
  intros H. repeat (destruct H as [H|H]; [discriminate H|]). exact H.
Qed.

(** C6. In every extraction result the cleaned text has no tab, no carriage
    return and no two spaces in a row, and so have the title, the
    description, every heading and every paragraph. *)
Theorem output_text_normalized (validUrl : jsstring) (page : document) :
  let r := extract validUrl page in
  normalized (cleanedText r)
  /\ normalized (title r)
  /\ match description r with
     | Some d => normalized d
     | None => True
     end
  /\ Forall normalized
            (h1 (headings r) ++ h2 (headings r) ++ h3 (headings r)
               ++ h4 (headings r) ++ h5 (headings r) ++ h6 (headings r))
  /\ Forall normalized (paragraphs r).
Proof.
  assert (Hmap : forall l, Forall normalized (map cleanText l)).
  { intros l. apply Forall_forall. intros x Hx.
    apply in_map_iff in Hx as (y & <- & _). apply cleanText_normalized. }
  unfold extract.
  cbn [cleanedText title description headings paragraphs h1 h2 h3 h4 h5 h6].
  split; [apply cleanText_normalized|].
  split; [apply cleanText_normalized|].
  split; [|split].
  - destruct (raw_description (remove_noise page)); cbn [option_map];
      [apply cleanText_normalized|exact I].
  - repeat (apply Forall_app; split); apply Hmap.
  - apply Hmap.
Qed.

(** The paragraphs of a result, read off the tree the removals left. *)
Lemma paragraphs_of_pruned_tree (validUrl : jsstring) (page : document) :
  paragraphs (extract validUrl page)
  = map cleanText
        (filter (fun t => (20 <? length t)%nat)
                (map (fun e => trim (text_of e))
                     (select (ByTag (lit "p")) (remove_noise page)))).
Proof.
  unfold extract. cbn [paragraphs]. unfold collect_paragraphs.
  f_equal. apply filter_ext. intros [|c t]; reflexivity.
Qed.

(** C7, as the code has it. A text is among the output paragraphs only if
    it comes from a paragraph element, of the tree the removals left,
    whose trimmed text is longer than 20 characters before the whitespace
    normalization; the output holds the normalization of that trimmed
    text, and every entry is trimmed. *)
Theorem paragraphs_kept_by_trimmed_length
        (validUrl : jsstring) (page : document) :
  Forall (fun x =>
            exists e,
              In e (select (ByTag (lit "p")) (remove_noise page))
              /\ x = cleanText (trim (text_of e))
              /\ (20 < length (trim (text_of e)))%nat)
         (paragraphs (extract validUrl page))
  /\ Forall trimmed (paragraphs (extract validUrl page)).
Proof.
  rewrite paragraphs_of_pruned_tree.
  set (ps := select (ByTag (lit "p")) (remove_noise page)).
  split.
  - apply Forall_forall. intros x Hx.
    apply in_map_iff in Hx as (t & <- & Ht).
    apply filter_In in Ht as (Ht & L).
    apply in_map_iff in Ht as (e & <- & He).
    exists e. split; [exact He|]. split; [reflexivity|].
    apply Nat.ltb_lt. exact L.
  - apply Forall_forall. intros x Hx.
    apply in_map_iff in Hx as (y & <- & _). apply cleanText_trimmed.
Qed.

(** C7, counterexample. A paragraph of 27 characters is kept, and what the
    output holds of it has 3 characters. *)
Lemma spaced_paragraph_kept_short :
  paragraphs (extract site page_spaced) = [lit "a b"]
  /\ ~ (20 < length (lit "a b"))%nat.
Proof. split; [vm_compute; reflexivity|vm_compute; lia]. Qed.

(** A paragraph below a removed element is long enough and yet not in
    the output: the length test is no sufficient condition on the page. *)
Lemma footer_paragraph_left_out :
  paragraphs (extract site page_footer_paragraph) = []
  /\ (20 < length (lit "A paragraph of thirty-seven characters"))%nat.
Proof. split; [vm_compute; reflexivity|vm_compute; lia]. Qed.

(** C8, the failing input. A page without title and first-level heading
    whose social title is a single space gets the empty title. *)
Theorem blank_social_title_gives_empty_title :
  title (extract site page_blank_social_title) = [].
Proof. vm_compute. reflexivity. Qed.


(** C9. Normalizing twice gives what normalizing once gives. *)
Theorem cleanText_idempotent (s : jsstring) :
  cleanText (cleanText s) = cleanText s.
Proof.
  rewrite (tidy_cleanText _ (cleanText_tidy s)). apply cleanText_trimmed.
Qed.

End ExtractorSpec.

(* ===================================================================== *)
(** * The synthesizer's properties *)
(* ===================================================================== *)

Module SynthesizerSpec.
Import JS Json Synth Count Retry Validate Scenarios.

(** What lines 220-232 make of a text the direct decode gave nothing
    for: the bracketed part, or the whole text when there is none, is
    decoded. *)
Definition decode_fallback (E : env) (jsonString : jsstring) : exn + json :=
  let candidate :=
    match match_array jsonString with
    | Some jsonMatch => jsonMatch
    | None => jsonString
    end in
  match JSON_parse candidate with
  | None =>
      inl (SyntaxError (lit "Invalid JSON in response: "
                          ++ syntax_error_message E candidate))
  | Some faqs =>
      if is_array faqs then inr faqs
      else inl (Error (lit "Response is not an array"))
  end.

(** The text [s] has its first opening bracket behind [pre] and, behind
    that bracket, its last closing bracket before [post]: the bracketed
    part is the bracket, [mid] and the closing bracket. *)
Definition bracketed (s pre mid post : jsstring) : Prop :=
  s = pre ++ 91%N :: mid ++ 93%N :: post
  /\ ~ In 91%N pre /\ ~ In 93%N post.

(** The text has no opening bracket, or no closing bracket behind its
    first opening one. *)
Definition unbracketed (s : jsstring) : Prop :=
  ~ In 91%N s
  \/ exists pre rest,
       s = pre ++ 91%N :: rest /\ ~ In 91%N pre /\ ~ In 93%N rest.

(** What [generateFaqs] throws for each of the errors of
    [parseFaqResponse]: the message its catch block gives the error. *)
Definition parse_failure_thrown (E : env) (e thrown : exn) : Prop :=
  (e = Error (lit "Empty response from OpenAI API")
   /\ thrown = Error (lit "OpenAI API error: Empty response from OpenAI API"))
  \/ (exists s,
         e = SyntaxError (lit "Invalid JSON in response: "
                            ++ syntax_error_message E s)
         /\ thrown
            = Error (lit "Failed to parse FAQ response: Invalid JSON in response: "
                       ++ syntax_error_message E s
                       ++ lit ". The API may have returned invalid JSON."))
  \/ (e = Error (lit "Response is not an array")
      /\ thrown = Error (lit "OpenAI API error: Response is not an array")).

Lemma generateFaqs_answered E text count w c w' :
  ready E text = true ->
  makeOpenAIRequest E (prompt_of text count) 2 w = (inr c, w') ->
  generateFaqs E text count w = (finish E count c, w').
Proof. intros R H. now rewrite (generateFaqs_ready _ _ _ _ R), H. Qed.

Lemma finish_checked E count c faqs :
  parseFaqResponse E c = inr faqs ->
  finish E count c =
  match check_faqs (faqCount count) faqs with
  | inl e => inl (surface e)
  | inr res => inr res
  end.
Proof. unfold finish. now intros ->. Qed.

Lemma check_faqs_exact n items :
  forallb valid_faq items = true ->
  length items = n -> n <> 0%nat ->
  check_faqs n (JArray items) = inr (map trim_faq items).
Proof.
  intros Hv Hl Hn. unfold check_faqs.
  destruct (length items =? 0)%nat eqn:Z; [apply Nat.eqb_eq in Z; lia|].
  rewrite (validate_from_valid _ Hv), length_map, Hl, Nat.ltb_irrefl.
  now rewrite length_map, Hl, Nat.eqb_refl.
Qed.

Lemma parseFaqResponse_text E c text :
  content c = Some text -> text <> [] ->
  parseFaqResponse E c =
  match direct_decode (strip_fences text) with
  | Some faqs => inr faqs
  | None => decode_fallback E (strip_fences text)
  end.
Proof.
  intros Hc Hne. unfold parseFaqResponse. rewrite Hc.
  destruct text; [congruence|reflexivity].
Qed.

Lemma from_first_absent c s : ~ In c s -> from_first c s = None.
Proof.
  induction s as [|d r IH]; intros H; [reflexivity|].
  cbn [from_first]. destruct (N.eqb_spec d c) as [->|_].
  - exfalso. apply H. left. reflexivity.
  - apply IH. intros K. apply H. right. exact K.
Qed.

Lemma from_first_found c pre r :
  ~ In c pre -> from_first c (pre ++ c :: r) = Some (c :: r).
Proof.
  induction pre as [|d pre IH]; intros H; cbn [app from_first].
  - now rewrite N.eqb_refl.
  - destruct (N.eqb_spec d c) as [->|_].
    + exfalso. apply H. left. reflexivity.
    + apply IH. intros K. apply H. right. exact K.
Qed.

Lemma from_first_inv c s :
  match from_first c s with
  | Some t => exists pre r, s = pre ++ c :: r /\ t = c :: r /\ ~ In c pre
  | None => ~ In c s
  end.
Proof.
  induction s as [|d s IH]; cbn [from_first]; [tauto|].
  destruct (N.eqb_spec d c) as [->|Hd].
  - exists [], s. repeat split. tauto.
  - destruct (from_first c s) as [t|].
    + destruct IH as (pre & r & -> & -> & Hp).
      exists (d :: pre), r. repeat split. intros [K|K]; auto.
    + intros [K|K]; auto.
Qed.

Lemma upto_last_absent c s : ~ In c s -> upto_last c s = None.
Proof.
  induction s as [|d r IH]; intros H; [reflexivity|].
  cbn [upto_last]. rewrite IH by (intros K; apply H; right; exact K).
  destruct (N.eqb_spec d c) as [->|_]; [|reflexivity].
  exfalso. apply H. left. reflexivity.
Qed.

Lemma upto_last_found c mid post :
  ~ In c post -> upto_last c (mid ++ c :: post) = Some (S (length mid)).
Proof.
  intros H. induction mid as [|d mid IH]; cbn [app upto_last length].
  - now rewrite (upto_last_absent _ _ H), N.eqb_refl.
  - now rewrite IH.
Qed.

Lemma upto_last_inv c s :
  match upto_last c s with
  | Some k => exists mid post, s = mid ++ c :: post /\ ~ In c post
  | None => ~ In c s
  end.
Proof.
  induction s as [|d s IH]; cbn [upto_last]; [tauto|].
  destruct (upto_last c s) as [k|].
  - destruct IH as (mid & post & -> & Hp). exists (d :: mid), post. auto.
  - destruct (N.eqb_spec d c) as [->|Hd].
    + exists [], s. auto.
    + intros [K|K]; auto.
Qed.

Lemma firstn_through {A} (mid : list A) c post :
  firstn (S (length mid)) (mid ++ c :: post) = mid ++ [c].
Proof.
  induction mid as [|d mid IH]; [reflexivity|].
  cbn [length app]. rewrite firstn_cons. now rewrite IH.
Qed.

Lemma match_array_bracketed s pre mid post :
  bracketed s pre mid post -> match_array s = Some (91%N :: mid ++ [93%N]).
Proof.
  intros (-> & Hpre & Hpost). unfold match_array.
  rewrite (from_first_found _ _ _ Hpre), (upto_last_found _ _ _ Hpost).
  now rewrite firstn_through.
Qed.

Lemma match_array_unbracketed s : unbracketed s -> match_array s = None.
Proof.
  intros [H|(pre & rest & -> & Hpre & Hrest)]; unfold match_array.
  - now rewrite (from_first_absent _ _ H).
  - now rewrite (from_first_found _ _ _ Hpre), (upto_last_absent _ _ Hrest).
Qed.

Lemma bracketed_or_not s :
  (exists pre mid post, bracketed s pre mid post) \/ unbracketed s.
Proof.
  pose proof (from_first_inv 91%N s) as F.
  destruct (from_first 91%N s) as [t|]; [|right; left; exact F].
  destruct F as (pre & r & -> & _ & Hpre).
  pose proof (upto_last_inv 93%N r) as U.
  destruct (upto_last 93%N r) as [k|].
  - destruct U as (mid & post & -> & Hpost).
    left. exists pre, mid, post. repeat split; auto.
  - right; right. exists pre, r. auto.
Qed.

Lemma parse_elements_array fuel acc s v r :
  parse_elements fuel acc s = Some (v, r) -> is_array v = true.
Proof.
  revert acc s. induction fuel as [|f IH]; intros acc s; [discriminate|].
  cbn [parse_elements].
  destruct (parse_value f s) as [[x t]|]; [|discriminate].
  destruct (skip_ws t) as [|c t']; [discriminate|].
  destruct (c =? 44)%N; [apply IH|].
  destruct (c =? 93)%N; [|discriminate].
  intros H; inversion H; reflexivity.
Qed.

Lemma JSON_parse_bracket s v :
  JSON_parse (91%N :: s) = Some v -> is_array v = true.
Proof.
  unfold JSON_parse.
  destruct (parse_value _ _) as [[x t]|] eqn:P; [|discriminate].
  destruct (skip_ws t); [|discriminate]. intros H; inversion H; subst x.
  clear H. revert P. generalize (2 * length (91%N :: s) + 2)%nat.
  intros [|f]; [discriminate|]. cbn [parse_value skip_ws json_ws].
  change (json_ws 91) with false. cbv iota.
  change (91 =? 123)%N with false. change (91 =? 91)%N with true. cbv iota.
  destruct (skip_ws s) as [|c r]; [discriminate|].
  destruct (c =? 93)%N.
  - intros H; inversion H; reflexivity.
  - apply parse_elements_array.
Qed.

Lemma direct_decode_none js :
  direct_decode js = None ->
  match JSON_parse js with
  | Some v => is_array v = false
  | None => True
  end.
Proof.
  unfold direct_decode. destruct (JSON_parse js) as [v|]; [|auto].
  destruct v as [| | | |items|members]; try reflexivity.
  cbn [get_member is_array]. discriminate.
Qed.

Lemma direct_decode_syntax js :
  JSON_parse js = None -> direct_decode js = None.
Proof. unfold direct_decode. now intros ->. Qed.


Lemma parse_failure_surface E c e :
  parseFaqResponse E c = inl e -> parse_failure_thrown E e (surface e).
Proof.
  unfold parseFaqResponse.
  destruct (content c) as [[|x text]|].
  - intros H; injection H as <-. left. split; reflexivity.
  - destruct (direct_decode _); [discriminate|].
    destruct (JSON_parse _) as [v|].
    + destruct (is_array v); [discriminate|].
      intros H; injection H as <-. right; right. split; reflexivity.
    + intros H; injection H as <-. right; left. eexists.
      split; reflexivity.
  - intros H; injection H as <-. left. split; reflexivity.
Qed.

(** C1. A successful call returns exactly as many items as the clamped
    count says, the first of the decoded items with their two texts
    trimmed.  Well-formed items in excess are cut off without an error.
    Items short of the count make the call fail: with the count error of
    line 109 when they have passed the validation, with the error of line
    80 when there is none; in no case is a shorter list returned. *)
Theorem exact_count_or_failure
        (E : env) (text : jsstring) (count : option number) (w : world) :
  (forall res w',
      generateFaqs E text count w = (inr res, w') ->
      length res = faqCount count
      /\ exists c items,
           makeOpenAIRequest E (prompt_of text count) 2 w = (inr c, w')
           /\ parseFaqResponse E c = inr (JArray items)
           /\ res = firstn (faqCount count) (map trim_faq items))
  /\ (forall c items w',
         ready E text = true ->
         makeOpenAIRequest E (prompt_of text count) 2 w = (inr c, w') ->
         parseFaqResponse E c = inr (JArray items) ->
         forallb valid_faq items = true ->
         (faqCount count < length items)%nat ->
         generateFaqs E text count w
         = (inr (firstn (faqCount count) (map trim_faq items)), w'))
  /\ (forall c items w',
         ready E text = true ->
         makeOpenAIRequest E (prompt_of text count) 2 w = (inr c, w') ->
         parseFaqResponse E c = inr (JArray items) ->
         forallb valid_faq items = true ->
         items <> [] ->
         (length items < faqCount count)%nat ->
         generateFaqs E text count w
         = (inl (wrapped (msg_deficit (faqCount count) (length items))), w'))
  /\ (forall c w',
         ready E text = true ->
         makeOpenAIRequest E (prompt_of text count) 2 w = (inr c, w') ->
         parseFaqResponse E c = inr (JArray []) ->
         generateFaqs E text count w
         = (inl (wrapped (lit "No FAQs generated")), w'))
  /\ (forall c items w',
         makeOpenAIRequest E (prompt_of text count) 2 w = (inr c, w') ->
         parseFaqResponse E c = inr (JArray items) ->
         (length items < faqCount count)%nat ->
         forall res w'', generateFaqs E text count w <> (inr res, w'')).
Proof.
  assert (Hsucc : forall res w',
      generateFaqs E text count w = (inr res, w') ->
      length res = faqCount count
      /\ exists c items,
           makeOpenAIRequest E (prompt_of text count) 2 w = (inr c, w')
           /\ parseFaqResponse E c = inr (JArray items)
           /\ res = firstn (faqCount count) (map trim_faq items)).
  { intros res w' H.
    destruct (generateFaqs_success _ _ _ _ _ _ H) as (_ & c & faqs & Hr & Hp & Hc).
    destruct (check_faqs_inr _ _ _ Hc) as (items & -> & _ & -> & Hlen).
    split; [exact Hlen|]. exists c, items. auto. }
  split; [exact Hsucc|]. split; [|split; [|split]].
  - intros c items w' R Hr Hp Hv Hl.
    rewrite (generateFaqs_answered _ _ _ _ _ _ R Hr).
    rewrite (finish_checked _ _ _ _ Hp).
    now rewrite (check_faqs_excess _ _ Hv Hl).
  - intros c items w' R Hr Hp Hv Hne Hl.
    rewrite (generateFaqs_answered _ _ _ _ _ _ R Hr).
    rewrite (finish_checked _ _ _ _ Hp).
    rewrite (check_faqs_deficit _ _ Hv Hne Hl).
    now rewrite (surface_Error _ (msg_deficit_nonempty _ _)).
  - intros c w' R Hr Hp.
    rewrite (generateFaqs_answered _ _ _ _ _ _ R Hr).
    now rewrite (finish_checked _ _ _ _ Hp).
  - intros c items w' Hr Hp Hl res w'' H.
    destruct (Hsucc _ _ H) as (Hlen & c' & items' & Hr' & Hp' & ->).
    rewrite Hr in Hr'. inversion Hr'; subst c' w''.
    rewrite Hp in Hp'. inversion Hp'; subst items'.
    rewrite length_firstn, length_map in Hlen. lia.
Qed.

(** C1 on the specification's scenarios: nine items for a count of seven
    give the first seven; four items for a count of seven give the count
    error; no item gives the error of line 80. *)
Lemma exact_count_or_failure_witness :
  generateFaqs (answering (faqs_text 9)) some_text (Some (Fin 7)) start
  = (inr (items_from 1 7), {| requests := 1; sleeps := [] |})
  /\ generateFaqs (answering (faqs_text 4)) some_text (Some (Fin 7)) start
     = (inl (wrapped (msg_deficit 7 4)), {| requests := 1; sleeps := [] |})
  /\ generateFaqs (answering (faqs_text 0)) some_text (Some (Fin 7)) start
     = (inl (wrapped (lit "No FAQs generated")),
        {| requests := 1; sleeps := [] |})
  /\ length (items_from 1 7) = faqCount (Some (Fin 7)).
Proof.
  split; [|split; [|split]].
  - apply (proj1 (proj2 (exact_count_or_failure
                           (answering (faqs_text 9)) some_text
                           (Some (Fin 7)) start))
             {| content := Some (faqs_text 9) |} (items_from 1 9)
             {| requests := 1; sleeps := [] |});
      vm_compute; try reflexivity. lia.
  - apply (proj1 (proj2 (proj2 (exact_count_or_failure
                                  (answering (faqs_text 4)) some_text
                                  (Some (Fin 7)) start)))
             {| content := Some (faqs_text 4) |} (items_from 1 4)
             {| requests := 1; sleeps := [] |});
      vm_compute; try reflexivity; try lia. discriminate.
  - apply (proj1 (proj2 (proj2 (proj2 (exact_count_or_failure
                                         (answering (faqs_text 0)) some_text
                                         (Some (Fin 7)) start))))
             {| content := Some (faqs_text 0) |}
             {| requests := 1; sleeps := [] |});
      vm_compute; reflexivity.
  - apply (proj1 (exact_count_or_failure
                    (answering (faqs_text 9)) some_text
                    (Some (Fin 7)) start)
             (items_from 1 7) {| requests := 1; sleeps := [] |}).
    vm_compute. reflexivity.
Defined.

(** C2. The count in effect is the floor of the requested count clamped
    into 5..10; a count that is no number, or none at all, gives 5; it is
    an integer, and a successful call returns that many items. *)
Theorem effective_count_is_clamped_floor (count : option number) :
  faqCount_number count = Fin (inject_Z (Z.of_nat (faqCount count)))
  /\ (5 <= faqCount count <= 10)%nat
  /\ Z.of_nat (faqCount count)
     = match count with
       | Some (Fin q) => clamp (Qfloor q) 5 10
       | Some (Inf false) => 10
       | Some (Inf true) | Some NaN | None => 5
       end%Z
  /\ (forall E text w res w',
         generateFaqs E text count w = (inr res, w') ->
         length res = faqCount count).
Proof.
  split; [apply faqCount_exact|]. split; [apply faqCount_range|].
  split; [apply faqCount_cases|].
  intros E text w res w' H.
  destruct (generateFaqs_success _ _ _ _ _ _ H) as (_ & c & faqs & _ & _ & Hc).
  now destruct (check_faqs_inr _ _ _ Hc) as (items & _ & _ & _ & Hlen).
Qed.

(** C2 on a count of seven and a half, with nine items decoded. *)
Lemma effective_count_witness :
  generateFaqs (answering (faqs_text 9)) some_text (Some (Fin (15 # 2)))
               start
  = (inr (items_from 1 7), {| requests := 1; sleeps := [] |})
  /\ length (items_from 1 7) = faqCount (Some (Fin (15 # 2))).
Proof.
  assert (H : generateFaqs (answering (faqs_text 9)) some_text
                           (Some (Fin (15 # 2))) start
              = (inr (items_from 1 7), {| requests := 1; sleeps := [] |})).
  { vm_compute. reflexivity. }
  split; [exact H|].
  exact (proj2 (proj2 (proj2 (effective_count_is_clamped_floor
                                (Some (Fin (15 # 2))))))
           _ _ _ _ _ H).
Defined.



(** C4. The answer's text is rid of its fences and decoded.  An object
    with an array in [faqs] gives that array.  When the direct decode
    gives nothing, the part of the text from its first opening bracket to
    the last closing bracket behind it is decoded instead, and the whole
    text when it has no such part.  Whatever fails here is one of the
    three errors of [parseFaqResponse], and [generateFaqs] throws an
    [Error] whose message names it.  An object whose [faqs] holds exactly
    as many well-formed items as the count says gives all of them back. *)
Theorem response_parsing (E : env) (c : completion) :
  (forall text members items,
      content c = Some text -> text <> [] ->
      JSON_parse (strip_fences text) = Some (JObject members) ->
      get_prop (lit "faqs") members = Some (JArray items) ->
      parseFaqResponse E c = inr (JArray items))
  /\ (forall text pre mid post,
         content c = Some text -> text <> [] ->
         direct_decode (strip_fences text) = None ->
         bracketed (strip_fences text) pre mid post ->
         parseFaqResponse E c
         = match JSON_parse (91%N :: mid ++ [93%N]) with
           | Some faqs => inr faqs
           | None =>
               inl (SyntaxError
                      (lit "Invalid JSON in response: "
                         ++ syntax_error_message E (91%N :: mid ++ [93%N])))
           end)
  /\ (forall text,
         content c = Some text -> text <> [] ->
         direct_decode (strip_fences text) = None ->
         unbracketed (strip_fences text) ->
         parseFaqResponse E c
         = match JSON_parse (strip_fences text) with
           | Some _ => inl (Error (lit "Response is not an array"))
           | None =>
               inl (SyntaxError
                      (lit "Invalid JSON in response: "
                         ++ syntax_error_message E (strip_fences text)))
           end)
  /\ (forall jsonString,
         (JSON_parse jsonString = None -> direct_decode jsonString = None)
         /\ ((exists pre mid post, bracketed jsonString pre mid post)
             \/ unbracketed jsonString))
  /\ (forall e,
         parseFaqResponse E c = inl e ->
         exists thrown,
           parse_failure_thrown E e thrown
           /\ forall text0 count w w',
                ready E text0 = true ->
                makeOpenAIRequest E (prompt_of text0 count) 2 w = (inr c, w') ->
                generateFaqs E text0 count w = (inl thrown, w'))
  /\ (forall text members items text0 count w w',
         content c = Some text -> text <> [] ->
         JSON_parse (strip_fences text) = Some (JObject members) ->
         get_prop (lit "faqs") members = Some (JArray items) ->
         forallb valid_faq items = true ->
         length items = faqCount count ->
         ready E text0 = true ->
         makeOpenAIRequest E (prompt_of text0 count) 2 w = (inr c, w') ->
         generateFaqs E text0 count w = (inr (map trim_faq items), w')).
Proof.
  assert (Hobj : forall text members items,
      content c = Some text -> text <> [] ->
      JSON_parse (strip_fences text) = Some (JObject members) ->
      get_prop (lit "faqs") members = Some (JArray items) ->
      parseFaqResponse E c = inr (JArray items)).
  { intros text members items Hc Hne Hp Hg.
    rewrite (parseFaqResponse_text _ _ _ Hc Hne).
    unfold direct_decode. rewrite Hp. cbn [get_member]. now rewrite Hg. }
  split; [exact Hobj|]. split; [|split; [|split; [|split]]].
  - intros text pre mid post Hc Hne Hd Hb.
    rewrite (parseFaqResponse_text _ _ _ Hc Hne), Hd.
    unfold decode_fallback. rewrite (match_array_bracketed _ _ _ _ Hb).
    destruct (JSON_parse (91%N :: mid ++ [93%N])) as [v|] eqn:P;
      [|reflexivity].
    now rewrite (JSON_parse_bracket _ _ P).
  - intros text Hc Hne Hd Hu.
    rewrite (parseFaqResponse_text _ _ _ Hc Hne), Hd.
    unfold decode_fallback. rewrite (match_array_unbracketed _ Hu).
    pose proof (direct_decode_none _ Hd) as A.
    destruct (JSON_parse (strip_fences text)) as [v|]; [|reflexivity].
    now rewrite A.
  - intros js. split; [apply direct_decode_syntax|apply bracketed_or_not].
  - intros e H. exists (surface e). split.
    + exact (parse_failure_surface _ _ _ H).
    + intros text0 count w w' R Hr.
      rewrite (generateFaqs_answered _ _ _ _ _ _ R Hr).
      unfold finish. now rewrite H.
  - intros text members items text0 count w w' Hc Hne Hp Hg Hv Hl R Hr.
    rewrite (generateFaqs_answered _ _ _ _ _ _ R Hr).
    rewrite (finish_checked _ _ _ _ (Hobj _ _ _ Hc Hne Hp Hg)).
    rewrite check_faqs_exact; auto.
    pose proof (faqCount_range count). lia.
Qed.

Ltac absent :=
  let K := fresh "K" in
  intros K; vm_compute in K;
  repeat (destruct K as [K|K]; [discriminate K|]); exact K.

(** C4 on the specification's scenario: a fenced object with five
    well-formed items and a count of five; the fences go and the five
    items come back.  Then the second decode: an array between prose and
    the array of an object without [faqs] are found and decoded; of two
    arrays the text from the first bracket to the last is taken, which is
    no JSON; a text without a bracket is decoded as a whole, and the call
    throws the message of the parse failure. *)
Lemma response_parsing_witness :
  strip_fences (fenced_text 5) = faqs_text 5
  /\ parseFaqResponse (answering (fenced_text 5))
                      {| content := Some (fenced_text 5) |}
     = inr (JArray (items_from 1 5))
  /\ generateFaqs (answering (fenced_text 5)) some_text (Some (Fin 5)) start
     = (inr (items_from 1 5), {| requests := 1; sleeps := [] |})
  /\ parseFaqResponse (answering prose_text) {| content := Some prose_text |}
     = inr (JArray (items_from 1 5))
  /\ parseFaqResponse (answering misnamed_text)
                      {| content := Some misnamed_text |}
     = inr (JArray (items_from 1 5))
  /\ parseFaqResponse (answering two_arrays_text)
                      {| content := Some two_arrays_text |}
     = inl (SyntaxError (lit "Invalid JSON in response: "
                           ++ engine_message two_arrays_text))
  /\ parseFaqResponse (answering (lit "no json here"))
                      {| content := Some (lit "no json here") |}
     = inl (SyntaxError (lit "Invalid JSON in response: "
                           ++ engine_message (lit "no json here")))
  /\ generateFaqs (answering (lit "no json here")) some_text (Some (Fin 5))
                  start
     = (inl (Error (lit "Failed to parse FAQ response: Invalid JSON in response: Unexpected token. The API may have returned invalid JSON.")),
        {| requests := 1; sleeps := [] |}).
Proof.
  split; [vm_compute; reflexivity|].
  split; [|split; [|split; [|split; [|split; [|split]]]]].
  - apply (proj1 (response_parsing (answering (fenced_text 5))
                    {| content := Some (fenced_text 5) |})
             (fenced_text 5)
             [(lit "faqs", JArray (items_from 1 5))] (items_from 1 5));
      vm_compute; try reflexivity. discriminate.
  - apply (proj2 (proj2 (proj2 (proj2 (proj2 (response_parsing
                                  (answering (fenced_text 5))
                                  {| content := Some (fenced_text 5) |})))))
             (fenced_text 5)
             [(lit "faqs", JArray (items_from 1 5))] (items_from 1 5)
             some_text (Some (Fin 5)) start
             {| requests := 1; sleeps := [] |});
      vm_compute; try reflexivity. discriminate.
  - rewrite (proj1 (proj2 (response_parsing (answering prose_text)
                             {| content := Some prose_text |}))
               prose_text (lit "Here are the FAQs: ") (items_text 1 5)
               (lit " Enjoy!")).
    + vm_compute. reflexivity.
    + reflexivity.
    + discriminate.
    + vm_compute. reflexivity.
    + split; [vm_compute; reflexivity|]. split; absent.
  - rewrite (proj1 (proj2 (response_parsing (answering misnamed_text)
                             {| content := Some misnamed_text |}))
               misnamed_text (qlit "{'items':") (items_text 1 5)
               (lit "}")).
    + vm_compute. reflexivity.
    + reflexivity.
    + discriminate.
    + vm_compute. reflexivity.
    + split; [vm_compute; reflexivity|]. split; absent.
  - rewrite (proj1 (proj2 (response_parsing (answering two_arrays_text)
                             {| content := Some two_arrays_text |}))
               two_arrays_text []
               (item_text 1 ++ lit "] and [" ++ item_text 2) []).
    + vm_compute. reflexivity.
    + reflexivity.
    + discriminate.
    + vm_compute. reflexivity.
    + split; [vm_compute; reflexivity|]. split; absent.
  - rewrite (proj1 (proj2 (proj2 (response_parsing
                                    (answering (lit "no json here"))
                                    {| content := Some (lit "no json here") |})))
               (lit "no json here")).
    + vm_compute. reflexivity.
    + reflexivity.
    + discriminate.
    + vm_compute. reflexivity.
    + left. absent.
  - destruct (proj1 (proj2 (proj2 (proj2 (proj2 (response_parsing
                (answering (lit "no json here"))
                {| content := Some (lit "no json here") |})))))
                (SyntaxError (lit "Invalid JSON in response: "
                                ++ engine_message (lit "no json here")))
                ltac:(vm_compute; reflexivity))
      as (thrown & [[D _]|[(s & _ & ->)|[D _]]] & G);
      try discriminate D.
    apply (G some_text (Some (Fin 5)) start
             {| requests := 1; sleeps := [] |});
      vm_compute; reflexivity.
Defined.



End SynthesizerSpec.

(* ===================================================================== *)
(** * More on the whitespace normalization *)
(* ===================================================================== *)

Module Collapse.
Import JS Crawler Tidy Solid.

(** A character that is no whitespace. *)
Definition solid (c : N) : bool := negb (is_space c).

(** The first replacement of [cleanText]. *)
Definition collapse (s : jsstring) : jsstring :=
  replace_all re_spaces [SPACE] 0 s.

(** Every character is whitespace. *)
Definition blank (s : jsstring) : bool := forallb is_space s.

Lemma collapse_solid c r :
  is_space c = false -> collapse (c :: r) = c :: collapse r.
Proof.
  intros H. unfold collapse. simpl. unfold re_spaces. simpl.
  now rewrite H.
Qed.

Lemma collapse_space c r :
  is_space c = true ->
  collapse (c :: r) = SPACE :: collapse (skipn (span_length is_space r) r).
Proof.
  intros H. unfold collapse. simpl. unfold re_spaces. simpl.
  rewrite H. simpl. now rewrite replace_all_skip.
Qed.

Lemma trimStart_skip s : trimStart s = skipn (span_length is_space s) s.
Proof.
  induction s as [|c r IH]; simpl; auto.
  destruct (is_space c); simpl; auto.
Qed.

Lemma skipn_span_starts_solid s :
  starts_solid (skipn (span_length is_space s) s).
Proof.
  pose proof (skipn_span_solid is_space s) as H.
  destruct (skipn (span_length is_space s) s); simpl; auto.
Qed.

Lemma trimStart_collapse s : trimStart (collapse s) = collapse (trimStart s).
Proof.
  destruct s as [|c r]; [reflexivity|].
  destruct (is_space c) eqn:E.
  - rewrite (collapse_space _ _ E). simpl. rewrite E.
    rewrite (trimStart_skip r).
    apply trimStart_fixed, replace_spaces_head, skipn_span_starts_solid.
  - rewrite (collapse_solid _ _ E). simpl. rewrite E.
    now rewrite (collapse_solid _ _ E).
Qed.

Lemma filter_space c r :
  is_space c = true -> filter solid (c :: r) = filter solid r.
Proof. intros H. simpl. unfold solid at 1. now rewrite H. Qed.

Lemma filter_solid c r :
  is_space c = false -> filter solid (c :: r) = c :: filter solid r.
Proof. intros H. simpl. unfold solid at 1. now rewrite H. Qed.

Lemma filter_skip_span s :
  filter solid (skipn (span_length is_space s) s) = filter solid s.
Proof.
  induction s as [|c r IH]; [reflexivity|].
  simpl span_length. destruct (is_space c) eqn:E.
  - simpl skipn. now rewrite IH, (filter_space _ _ E).
  - reflexivity.
Qed.

Lemma filter_collapse_len n :
  forall s, (length s <= n)%nat -> filter solid (collapse s) = filter solid s.
Proof.
  induction n as [|n IH]; intros [|c r] Hl; simpl in Hl; try reflexivity;
    try lia.
  destruct (is_space c) eqn:E.
  - rewrite (collapse_space _ _ E), (filter_space _ _ E).
    rewrite (filter_space SPACE _ eq_refl).
    rewrite IH, filter_skip_span; auto.
    rewrite length_skipn. lia.
  - rewrite (collapse_solid _ _ E), !(filter_solid _ _ E).
    rewrite IH; auto. lia.
Qed.

Lemma filter_collapse s : filter solid (collapse s) = filter solid s.
Proof. apply (filter_collapse_len (length s)). lia. Qed.

Lemma filter_trimStart s : filter solid (trimStart s) = filter solid s.
Proof.
  induction s as [|c r IH]; [reflexivity|].
  simpl trimStart. destruct (is_space c) eqn:E; [|reflexivity].
  now rewrite IH, (filter_space _ _ E).
Qed.

Lemma filter_trimEnd s : filter solid (trimEnd s) = filter solid s.
Proof.
  induction s as [|c r IH]; [reflexivity|].
  simpl trimEnd. destruct (is_space c) eqn:E.
  - rewrite (filter_space _ _ E), <- IH.
    destruct (trimEnd r); [reflexivity|]. now rewrite (filter_space _ _ E).
  - rewrite (filter_solid _ _ E), <- IH.
    destruct (trimEnd r); now rewrite (filter_solid _ _ E).
Qed.

Lemma trimEnd_nil_filter s : trimEnd s = [] <-> filter solid s = [].
Proof.
  split.
  - intros H. rewrite <- filter_trimEnd, H. reflexivity.
  - induction s as [|c r IH]; [reflexivity|].
    destruct (is_space c) eqn:E.
    + rewrite (filter_space _ _ E). intros H. simpl.
      now rewrite (IH H), E.
    + rewrite (filter_solid _ _ E). discriminate.
Qed.

Lemma trimEnd_cons_length c r :
  length (trimEnd (c :: r))
  = match trimEnd r with
    | [] => if is_space c then 0%nat else 1%nat
    | _ :: _ => S (length (trimEnd r))
    end.
Proof.
  simpl. destruct (trimEnd r); [destruct (is_space c)|]; reflexivity.
Qed.

Lemma trimEnd_length s : (length (trimEnd s) <= length s)%nat.
Proof.
  induction s as [|c r IH]; [simpl; lia|].
  rewrite trimEnd_cons_length. simpl.
  destruct (trimEnd r); [destruct (is_space c)|]; simpl in *; lia.
Qed.

Lemma trimStart_length s : (length (trimStart s) <= length s)%nat.
Proof.
  induction s as [|c r IH]; simpl; auto.
  destruct (is_space c); simpl; lia.
Qed.

Lemma trimEnd_skipn_length k :
  forall s, (length (trimEnd (skipn k s)) <= length (trimEnd s))%nat.
Proof.
  induction k as [|k IH]; intros [|c r]; simpl skipn; try lia.
  specialize (IH r). rewrite trimEnd_cons_length.
  destruct (trimEnd r) eqn:E; simpl in *; lia.
Qed.

Lemma trimEnd_collapse_len n :
  forall s, (length s <= n)%nat ->
            (length (trimEnd (collapse s)) <= length (trimEnd s))%nat.
Proof.
  induction n as [|n IH]; intros [|c r] Hl; simpl in Hl;
    try (simpl; lia).
  destruct (is_space c) eqn:E.
  - rewrite (collapse_space _ _ E). set (r' := skipn _ r).
    assert (Hr' : (length r' <= n)%nat).
    { subst r'. rewrite length_skipn. lia. }
    specialize (IH r' Hr').
    rewrite !trimEnd_cons_length.
    destruct (trimEnd (collapse r')) as [|x l] eqn:T; [apply Nat.le_0_l|].
    assert (Hs : trimEnd r <> []).
    { intros Hn. apply trimEnd_nil_filter in Hn.
      assert (K : filter solid (collapse r') = []).
      { rewrite filter_collapse. subst r'.
        now rewrite filter_skip_span. }
      apply trimEnd_nil_filter in K. rewrite K in T. discriminate. }
    pose proof (trimEnd_skipn_length (span_length is_space r) r) as Hk.
    fold r' in Hk.
    destruct (trimEnd r) as [|y m]; [congruence|]. simpl in *. lia.
  - rewrite (collapse_solid _ _ E). rewrite !trimEnd_cons_length.
    assert (IHr := IH r ltac:(lia)). rewrite E.
    destruct (trimEnd (collapse r)) as [|x l] eqn:T;
      destruct (trimEnd r) as [|y m] eqn:T'; simpl in *; try lia.
Qed.

Lemma cleanText_collapse_trim s :
  cleanText s = trimEnd (collapse (trimStart s)).
Proof.
  rewrite cleanText_spaces. unfold trim. fold (collapse s).
  now rewrite trimStart_collapse.
Qed.

Lemma blank_filter s : blank s = true <-> filter solid s = [].
Proof.
  unfold blank. induction s as [|c r IH]; [simpl; tauto|].
  simpl forallb. destruct (is_space c) eqn:E.
  - now rewrite (filter_space _ _ E).
  - rewrite (filter_solid _ _ E). split; discriminate.
Qed.

End Collapse.

(* ===================================================================== *)
(** * Further properties of the extractor *)
(* ===================================================================== *)

Module ExtractorMore.
Import JS Crawler Tidy Solid Noise Collapse Scenarios.

(** [s.startsWith(p)] *)
Definition starts_with (p s : jsstring) : bool :=
  match strip_prefix p s with
  | Some _ => true
  | None => false
  end.

(** All headings of a result, level by level. *)
Definition all_headings (r : structuredContent) : list jsstring :=
  h1 (headings r) ++ h2 (headings r) ++ h3 (headings r)
     ++ h4 (headings r) ++ h5 (headings r) ++ h6 (headings r).

Lemma cleanText_le_trim (s : jsstring) :
  (length (cleanText s) <= length (trim s))%nat.
Proof.
  rewrite cleanText_collapse_trim. unfold trim.
  apply (trimEnd_collapse_len (length (trimStart s))). lia.
Qed.

Lemma trim_le (s : jsstring) : (length (trim s) <= length s)%nat.
Proof.
  unfold trim. pose proof (trimEnd_length (trimStart s)).
  pose proof (trimStart_length s). lia.
Qed.

Lemma trim_blank s : trim s = [] <-> blank s = true.
Proof.
  rewrite blank_filter. unfold trim.
  rewrite trimEnd_nil_filter, filter_trimStart. tauto.
Qed.

Lemma cleanText_of_blank (s : jsstring) : trim s = [] -> cleanText s = [].
Proof.
  intros H. rewrite cleanText_spaces. unfold trim in *.
  apply trimEnd_nil_filter in H. rewrite filter_trimStart in H.
  apply trimEnd_nil_filter. rewrite filter_trimStart.
  fold (collapse s). now rewrite filter_collapse.
Qed.

(** X1. Normalization never lengthens a text: the cleaned text is at most
    as long as the trimmed text, which is at most as long as the text. *)
Theorem cleanText_never_longer (s : jsstring) :
  (length (cleanText s) <= length (trim s))%nat
  /\ (length (trim s) <= length s)%nat.
Proof.
  split.
  - apply cleanText_le_trim.
  - apply trim_le.
Qed.

(** X2. Normalization keeps the characters that are no whitespace, all of
    them and in their order. *)
Theorem cleanText_keeps_content (s : jsstring) :
  filter solid (cleanText s) = filter solid s.
Proof.
  rewrite cleanText_spaces. unfold trim.
  rewrite filter_trimEnd, filter_trimStart. apply filter_collapse.
Qed.

(** X3. The texts normalization leaves as they are: those whose every
    whitespace is a single space between two other characters. *)
Theorem cleanText_fixed_points (s : jsstring) :
  cleanText s = s <-> tidy s /\ trim s = s.
Proof.
  split.
  - intros H. rewrite <- H. split; [apply cleanText_tidy|].
    apply cleanText_trimmed.
  - intros [Ht Hs]. now rewrite (tidy_cleanText _ Ht).
Qed.

Lemma cleanText_fixed_points_witness :
  cleanText (lit "a b c") = lit "a b c"
  /\ tidy (lit "a b c") /\ trim (lit "a b c") = lit "a b c".
Proof.
  assert (H : cleanText (lit "a b c") = lit "a b c")
    by (vm_compute; reflexivity).
  split; [exact H|].
  exact (proj1 (cleanText_fixed_points (lit "a b c")) H).
Defined.

(** X4. The cleaned text is empty exactly when the text is blank. *)
Theorem cleanText_empty_iff_blank (s : jsstring) :
  cleanText s = [] <-> blank s = true.
Proof.
  split; intros H.
  - apply trim_blank, cleanText_nil_blank, H.
  - apply cleanText_of_blank, trim_blank, H.
Qed.

Lemma cleanText_empty_iff_blank_witness :
  blank (qlit "  |  ") = true /\ cleanText (qlit "  |  ") = [].
Proof.
  assert (H : blank (qlit "  |  ") = true) by (vm_compute; reflexivity).
  split; [exact H|].
  exact (proj2 (cleanText_empty_iff_blank (qlit "  |  ")) H).
Defined.

Lemma cleanText_trim_nonempty t :
  nonempty (trim t) = true -> cleanText (trim t) <> [].
Proof.
  intros H E. apply cleanText_nil_blank in E. rewrite trim_idem in E.
  rewrite E in H. discriminate.
Qed.

Lemma cleaned_entries (keep : jsstring -> bool) (sel : list node) :
  (forall t, keep t = true -> nonempty t = true) ->
  Forall (fun h => h <> [] /\ trim h = h /\ normalized h)
         (map cleanText
              (filter keep (map (fun e => trim (text_of e)) sel))).
Proof.
  intros Hk. apply Forall_forall. intros h Hh.
  apply in_map_iff in Hh as (t & <- & Ht).
  apply filter_In in Ht as (Ht & K).
  apply in_map_iff in Ht as (e & <- & _).
  split; [|split].
  - apply cleanText_trim_nonempty, Hk, K.
  - apply cleanText_trimmed.
  - apply cleanText_normalized.
Qed.

(** X5. No heading and no paragraph of a result is empty; each is trimmed
    and normalized. *)
Theorem headings_and_paragraphs_never_empty
        (validUrl : jsstring) (page : document) :
  Forall (fun h => h <> [] /\ trim h = h /\ normalized h)
         (all_headings (extract validUrl page)
                       ++ paragraphs (extract validUrl page)).
Proof.
  unfold all_headings, extract.
  cbn [headings paragraphs h1 h2 h3 h4 h5 h6].
  unfold collect_headings, collect_paragraphs.
  repeat (apply Forall_app; split);
    apply cleaned_entries; intros t H; auto.
  apply andb_true_iff in H. tauto.
Qed.

(** X6. The counts of the metadata are those of the lists and texts the
    result holds, and the cleaned text is the normalization of the raw
    text and never longer than it. *)
Theorem metadata_agrees_with_content
        (validUrl : jsstring) (page : document) :
  let r := extract validUrl page in
  totalHeadings (metadata r) = length (all_headings r)
  /\ totalParagraphs (metadata r) = length (paragraphs r)
  /\ textLength (metadata r) = length (cleanedText r)
  /\ rawTextLength (metadata r) = length (rawText r)
  /\ cleanedText r = cleanText (rawText r)
  /\ (textLength (metadata r) <= rawTextLength (metadata r))%nat.
Proof.
  unfold all_headings, extract.
  cbn [headings paragraphs h1 h2 h3 h4 h5 h6 metadata totalHeadings
       totalParagraphs textLength rawTextLength cleanedText rawText].
  repeat split.
  - now rewrite !length_app, !length_map.
  - now rewrite length_map.
  - pose proof (cleanText_le_trim (main_content (remove_noise page))).
    pose proof (trim_le (main_content (remove_noise page))). lia.
Qed.

Lemma strip_prefix_app p s : strip_prefix p (p ++ s) = Some s.
Proof.
  induction p as [|a p IH]; simpl; [reflexivity|].
  now rewrite N.eqb_refl.
Qed.

Lemma trimEnd_app_solid a t :
  forallb solid a = true -> trimEnd t = t -> trimEnd (a ++ t) = a ++ t.
Proof.
  intros Ha Ht. induction a as [|x a IH]; simpl; auto.
  simpl in Ha. apply andb_true_iff in Ha as [Hx Ha].
  rewrite (IH Ha). unfold solid in Hx. apply negb_true_iff in Hx.
  destruct (a ++ t); [now rewrite Hx|reflexivity].
Qed.

(** X7. The address the page is fetched from always has a scheme, and
    normalizing an address twice gives what normalizing it once gives. *)
Theorem normalize_url_idempotent (u : jsstring) :
  starts_with (lit "http://") (normalize_url u)
  || starts_with (lit "https://") (normalize_url u) = true
  /\ normalize_url (normalize_url u) = normalize_url u.
Proof.
  unfold normalize_url, starts_with.
  destruct (strip_prefix (lit "http://") (trim u)) as [r1|] eqn:P1.
  - split; [now rewrite P1|]. rewrite trim_idem. now rewrite P1.
  - destruct (strip_prefix (lit "https://") (trim u)) as [r2|] eqn:P2.
    + split; [rewrite P1, P2; reflexivity|].
      rewrite trim_idem. now rewrite P1, P2.
    + assert (T : trim (lit "https://" ++ trim u) = lit "https://" ++ trim u).
      { unfold trim at 1. rewrite trimStart_fixed by reflexivity.
        apply trimEnd_app_solid; [reflexivity|].
        unfold trim. apply trimEnd_idem. }
      rewrite strip_prefix_app. split; [apply orb_true_r|].
      rewrite T, strip_prefix_app.
      destruct (strip_prefix (lit "http://") _); reflexivity.
Qed.



End ExtractorMore.

(* ===================================================================== *)
(** * The extractor's failures and its caller *)
(* ===================================================================== *)

Module Fetch.
Import JS Crawler.

(** [s.includes(sub)] *)
Fixpoint includes (s sub : jsstring) : bool :=
  match strip_prefix sub s with
  | Some _ => true
  | None =>
      match s with
      | [] => false
      | _ :: r => includes r sub
      end
  end.

(** [${x}] for a text that may be undefined. *)
Definition show_undefined (x : option jsstring) : jsstring :=
  match x with Some s => s | None => lit "undefined" end.

(** [error.response] of a rejected fetch. *)
Record http_failure := {
  fail_status : Z;
  statusText : jsstring
}.

(** What [crawlWebsite] catches, as far as the catch block reads it:
    [request] says whether [error.request] is truthy, and [None] is
    undefined. *)
Record fetch_error := {
  err_response : option http_failure;
  err_request : bool;
  err_code : option jsstring;
  err_hostname : option jsstring;
  err_message : option jsstring
}.

(** An [Error] thrown with a message, no request made. *)
Definition plain_error (m : jsstring) : fetch_error :=
  {| err_response := None; err_request := false; err_code := None;
     err_hostname := None; err_message := Some m |}.

Definition code_is (e : fetch_error) (c : string) : bool :=
  match err_code e with
  | Some k => jsstring_eqb k (lit c)
  | None => false
  end.

(** Lines 160-202 of [crawlWebsite]: the message of the [Error] the catch
    block throws. *)
Definition crawl_failure_message (error : fetch_error) : jsstring :=
  match err_response error with
  | Some response =>
      let status := fail_status response in
      if (status =? 403)%Z then
        lit "HTTP 403: Access Forbidden - The website is blocking automated requests. This could be due to:
- Cloudflare or bot protection
- Rate limiting
- IP blocking
- Required authentication
Try using a different website or contact the website owner."
      else if (status =? 404)%Z then
        lit "HTTP 404: Page not found - The URL does not exist or has been removed."
      else if (status =? 429)%Z then
        lit "HTTP 429: Too many requests - The website is rate limiting requests. Please try again later."
      else if (500 <=? status)%Z then
        lit "HTTP " ++ show_Z status
          ++ lit ": Server error - The website server is experiencing issues. Please try again later."
      else
        lit "HTTP " ++ show_Z status ++ lit ": Failed to fetch website - "
          ++ statusText response
  | None =>
      if err_request error then
        lit "Network error: No response from server. Please check the URL and your internet connection."
      else if code_is error "ENOTFOUND" then
        qlit "DNS error: Could not resolve hostname '"
          ++ show_undefined (err_hostname error)
          ++ qlit "'. Please check the URL is correct."
      else if code_is error "ECONNREFUSED" then
        lit "Connection refused: The server is not responding or the port is blocked."
      else if code_is error "ETIMEDOUT" || code_is error "ECONNABORTED" then
        lit "Request timeout: The server took too long to respond. The website may be slow or unavailable."
      else if code_is error "CERT_HAS_EXPIRED"
              || code_is error "UNABLE_TO_VERIFY_LEAF_SIGNATURE" then
        lit "SSL certificate error: The website has an invalid or expired SSL certificate."
      else
        lit "Failed to crawl website: "
          ++ show_undefined (err_message error)
  end.

(** [crawlWebsite] with its fetch: [fetch] answers the request for an
    address with the parsed page or with the error [axios.get] rejects
    with.  The result is the structured content or the message of the
    error thrown. *)
Definition crawl (fetch : jsstring -> fetch_error + document)
           (u : jsstring) : jsstring + structuredContent :=
  match u with
  | [] =>
      inl (crawl_failure_message (plain_error (lit "Valid URL is required")))
  | _ =>
      let validUrl := normalize_url u in
      match fetch validUrl with
      | inl error => inl (crawl_failure_message error)
      | inr page => inr (extract validUrl page)
      end
  end.

(** ** controllers/faqController.js *)

(** What a controller answers. *)
Inductive body :=
| ErrorBody (error : jsstring)
| CrawledBody (data : structuredContent)
| FaqsBody (count : nat) (faqs : list Json.json).

Record reply := {
  code : Z;
  payload : body
}.

(** Lines 17-22: the test for too little content. *)
Definition too_little (sc : structuredContent) : bool :=
  negb (nonempty (rawText sc))
  || negb (nonempty (cleanedText sc))
  || (length (trim (rawText sc)) <? 50)%nat
  || (length (trim (cleanedText sc)) <? 50)%nat.

(** Lines 45-54: the catch block of [crawlWebsiteController]. *)
Definition crawl_error_reply (message : jsstring) : reply :=
  if includes message (lit "HTTP")
     || includes message (lit "Network")
     || includes message (lit "DNS")
  then {| code := 400; payload := ErrorBody message |}
  else {| code := 500; payload := ErrorBody message |}.

(** [crawlWebsiteController].  [url] is [req.body.url], empty when it is
    missing; [save] stands for [crawledPage.save()] and gives the message
    of the error it throws, if it throws. *)
Definition crawlWebsiteController
           (fetch : jsstring -> fetch_error + document)
           (save : jsstring -> jsstring -> jsstring -> option jsstring)
           (url : jsstring) : reply :=
  match url with
  | [] => {| code := 400; payload := ErrorBody (lit "URL is required") |}
  | _ =>
      match crawl fetch url with
      | inl message => crawl_error_reply message
      | inr structuredContent =>
          if too_little structuredContent
          then {| code := 400;
                  payload := ErrorBody (lit "Website does not contain enough readable content to crawl") |}
          else
            match save (Crawler.url structuredContent)
                       (rawText structuredContent)
                       (cleanedText structuredContent) with
            | Some message => crawl_error_reply message
            | None => {| code := 200;
                         payload := CrawledBody structuredContent |}
            end
      end
  end.

End Fetch.

Module FetchSpec.
Import JS Crawler Tidy Solid Collapse ExtractorMore Fetch Scenarios.

Lemma jsstring_eqb_true a b : jsstring_eqb a b = true -> a = b.
Proof.
  unfold jsstring_eqb. destruct (list_eq_dec N.eq_dec a b); congruence.
Qed.

Lemma includes_unfold s sub :
  includes s sub
  = match strip_prefix sub s with
    | Some _ => true
    | None => match s with [] => false | _ :: r => includes r sub end
    end.
Proof. destruct s; reflexivity. Qed.

Lemma includes_prefix p x : includes (p ++ x) p = true.
Proof. now rewrite includes_unfold, strip_prefix_app. Qed.

Lemma reply_400 m :
  includes m (lit "HTTP") || includes m (lit "Network")
  || includes m (lit "DNS") = true ->
  crawl_error_reply m = {| code := 400; payload := ErrorBody m |}.
Proof. unfold crawl_error_reply. now intros ->. Qed.

Lemma http_message_400 x :
  crawl_error_reply (lit "HTTP " ++ x)
  = {| code := 400; payload := ErrorBody (lit "HTTP " ++ x) |}.
Proof.
  apply reply_400.
  change (lit "HTTP " ++ x) with (lit "HTTP" ++ 32%N :: x).
  now rewrite includes_prefix.
Qed.

Lemma response_message_http e r :
  err_response e = Some r ->
  exists x, crawl_failure_message e = lit "HTTP " ++ x.
Proof.
  intros H. unfold crawl_failure_message. rewrite H.
  destruct (fail_status r =? 403)%Z; [eexists; vm_compute; reflexivity|].
  destruct (fail_status r =? 404)%Z; [eexists; vm_compute; reflexivity|].
  destruct (fail_status r =? 429)%Z; [eexists; vm_compute; reflexivity|].
  destruct (500 <=? fail_status r)%Z; eexists; reflexivity.
Qed.

(** The codes for which the catch block has a message that names neither
    HTTP nor the network nor DNS. *)
Definition quiet_codes : list string :=
  ["ECONNREFUSED"; "ETIMEDOUT"; "ECONNABORTED"; "CERT_HAS_EXPIRED";
   "UNABLE_TO_VERIFY_LEAF_SIGNATURE"].

(** X9. How [crawlWebsiteController] answers a failed fetch, whatever the
    store would do.  A failure that carries a response, of whatever
    status, a request that got no response, and an unresolved host name
    are answered with 400 and the message of [crawlWebsite]; a refused
    connection, a timeout and a certificate failure, met without a
    request object, are answered with 500. *)
Theorem failed_fetch_reply
        (fetch : jsstring -> fetch_error + document)
        (save : jsstring -> jsstring -> jsstring -> option jsstring)
        (url : jsstring) (e : fetch_error) :
  url <> [] ->
  fetch (normalize_url url) = inl e ->
  (err_response e <> None \/ err_request e = true
   \/ code_is e "ENOTFOUND" = true ->
   crawlWebsiteController fetch save url
   = {| code := 400; payload := ErrorBody (crawl_failure_message e) |})
  /\ (forall k,
         err_response e = None -> err_request e = false ->
         In k quiet_codes -> err_code e = Some (lit k) ->
         crawlWebsiteController fetch save url
         = {| code := 500; payload := ErrorBody (crawl_failure_message e) |}).
Proof.
  intros Hu Hf.
  assert (Hc : crawlWebsiteController fetch save url
               = crawl_error_reply (crawl_failure_message e)).
  { unfold crawlWebsiteController, crawl.
    destruct url; [congruence|]. now rewrite Hf. }
  rewrite Hc. split.
  - intros [H|[H|H]].
    + destruct (err_response e) as [r|] eqn:R; [|congruence].
      destruct (response_message_http e r R) as [x ->].
      apply http_message_400.
    + unfold crawl_failure_message.
      destruct (err_response e) as [r|] eqn:R.
      * fold (crawl_failure_message e).
        destruct (response_message_http e r R) as [x Hx].
        unfold crawl_failure_message in Hx. rewrite R in Hx. rewrite Hx.
        apply http_message_400.
      * rewrite H. vm_compute. reflexivity.
    + unfold crawl_failure_message.
      destruct (err_response e) as [r|] eqn:R.
      * fold (crawl_failure_message e).
        destruct (response_message_http e r R) as [x Hx].
        unfold crawl_failure_message in Hx. rewrite R in Hx. rewrite Hx.
        apply http_message_400.
      * destruct (err_request e); [vm_compute; reflexivity|].
        rewrite H. apply reply_400.
        change (qlit "DNS error: Could not resolve hostname '")
          with (lit "DNS" ++ qlit " error: Could not resolve hostname '").
        rewrite <- app_assoc, includes_prefix. apply orb_true_r.
  - intros k R Q Hk Hcode. unfold crawl_failure_message, code_is.
    rewrite R, Q, Hcode.
    repeat (destruct Hk as [<-|Hk]; [vm_compute; reflexivity|]).
    destruct Hk.
Qed.

Definition fetch_failing (e : fetch_error) : jsstring -> fetch_error + document :=
  fun _ => inl e.

Definition saving : jsstring -> jsstring -> jsstring -> option jsstring :=
  fun _ _ _ => None.

Definition server_down : fetch_error :=
  {| err_response := Some {| fail_status := 503;
                             statusText := lit "Service Unavailable" |};
     err_request := true; err_code := None; err_hostname := None;
     err_message := Some (lit "Request failed with status code 503") |}.

Definition refused : fetch_error :=
  {| err_response := None; err_request := false;
     err_code := Some (lit "ECONNREFUSED"); err_hostname := None;
     err_message := Some (lit "connect ECONNREFUSED") |}.

Lemma failed_fetch_reply_witness :
  code (crawlWebsiteController (fetch_failing server_down) saving
                               (lit "example.com")) = 400%Z
  /\ code (crawlWebsiteController (fetch_failing refused) saving
                                  (lit "example.com")) = 500%Z.
Proof.
  split.
  - rewrite (proj1 (failed_fetch_reply (fetch_failing server_down) saving
                      (lit "example.com") server_down
                      ltac:(discriminate) eq_refl)).
    + reflexivity.
    + left. discriminate.
  - rewrite (proj2 (failed_fetch_reply (fetch_failing refused) saving
                      (lit "example.com") refused
                      ltac:(discriminate) eq_refl)
               "ECONNREFUSED" eq_refl eq_refl).
    + reflexivity.
    + left. reflexivity.
    + reflexivity.
Defined.

Lemma too_little_short sc :
  cleanedText sc = cleanText (rawText sc) ->
  too_little sc = (length (cleanedText sc) <? 50)%nat.
Proof.
  intros H. unfold too_little.
  pose proof (cleanText_le_trim (rawText sc)) as L1.
  pose proof (trim_le (rawText sc)) as L2.
  rewrite <- H in L1.
  assert (T : trim (cleanedText sc) = cleanedText sc).
  { rewrite H. apply cleanText_trimmed. }
  rewrite T.
  destruct (length (cleanedText sc) <? 50)%nat eqn:E.
  - apply orb_true_r.
  - apply Nat.ltb_ge in E.
    assert (E1 : (length (trim (rawText sc)) <? 50)%nat = false)
      by (apply Nat.ltb_ge; lia).
    rewrite E1.
    destruct (rawText sc) as [|x r]; [simpl in *; lia|].
    destruct (cleanedText sc) as [|y c]; [simpl in *; lia|].
    reflexivity.
Qed.

(** X10. For a fetched page the four-part content test of the controllers
    comes to one comparison: the content is too little exactly when the
    cleaned text has fewer than 50 characters.  The controller answers
    400 then, and otherwise stores the page and answers 200 or passes on
    the store's error. *)
Theorem content_test_is_cleaned_length
        (fetch : jsstring -> fetch_error + document)
        (save : jsstring -> jsstring -> jsstring -> option jsstring)
        (url : jsstring) (page : document) :
  url <> [] ->
  fetch (normalize_url url) = inr page ->
  let sc := extract (normalize_url url) page in
  too_little sc = (length (cleanedText sc) <? 50)%nat
  /\ crawlWebsiteController fetch save url
     = if (length (cleanedText sc) <? 50)%nat
       then {| code := 400;
               payload := ErrorBody (lit "Website does not contain enough readable content to crawl") |}
       else match save (normalize_url url) (rawText sc) (cleanedText sc) with
            | Some message => crawl_error_reply message
            | None => {| code := 200; payload := CrawledBody sc |}
            end.
Proof.
  intros Hu Hf sc.
  assert (Ht : too_little sc = (length (cleanedText sc) <? 50)%nat)
    by (apply too_little_short; reflexivity).
  split; [exact Ht|].
  unfold crawlWebsiteController, crawl.
  destruct url; [congruence|]. rewrite Hf. fold sc. rewrite Ht.
  reflexivity.
Qed.

Definition fetch_page (page : document) : jsstring -> fetch_error + document :=
  fun _ => inr page.

Lemma content_test_witness :
  crawlWebsiteController (fetch_page page_article) saving
                         (lit "example.com")
  = {| code := 400;
       payload := ErrorBody (lit "Website does not contain enough readable content to crawl") |}.
Proof.
  rewrite (proj2 (content_test_is_cleaned_length
                    (fetch_page page_article) saving (lit "example.com")
                    page_article ltac:(discriminate) eq_refl)).
  vm_compute. reflexivity.
Defined.

End FetchSpec.

(* ===================================================================== *)
(** * Further properties of the synthesizer *)
(* ===================================================================== *)

Module SynthMore.
Import JS Json Synth Count Retry Validate Collapse ExtractorMore Scenarios.

(** The delay slept after the failed attempt [k], in milliseconds. *)
Definition backoff (k : nat) : Z := 2 ^ Z.of_nat k * 1000.

Lemma request_loop_trace E prompt retries :
  forall left attempt lastError w r w',
    request_loop E prompt retries attempt left lastError w = (r, w') ->
    (attempt + left = S retries)%nat ->
    (0 < left)%nat ->
    exists k,
      (k < left)%nat
      /\ requests w' = (requests w + S k)%nat
      /\ sleeps w' = sleeps w ++ map backoff (seq attempt k)
      /\ match r with
         | inr c => provider E prompt (requests w + k) = inr c
         | inl e =>
             exists a, e = ApiError a
                       /\ provider E prompt (requests w + k) = inl a
                       /\ (client_error e = true \/ S k = left)
         end.
Proof.
  induction left as [|left IH]; intros attempt lastError w r w' H Hsum Hpos;
    [lia|].
  cbn [request_loop] in H. unfold try_catch, create in H.
  destruct (provider E prompt (requests w)) as [a|c] eqn:P.
  - destruct (client_error (ApiError a)) eqn:C.
    + unfold throw in H. inversion H; subst. exists 0%nat.
      cbn [seq map requests sleeps]. rewrite Nat.add_0_r, app_nil_r.
      repeat split; try lia. exists a. rewrite P. auto.
    + destruct (attempt <? retries)%nat eqn:A.
      * apply Nat.ltb_lt in A. unfold bind, sleep in H.
        apply IH in H; [|lia|lia].
        destruct H as (k & Hk & Hr & Hs & Hres). cbn [requests sleeps] in *.
        exists (S k). repeat split; try lia.
        -- rewrite Hs, <- app_assoc. reflexivity.
        -- replace (requests w + S k)%nat with (S (requests w) + k)%nat
             by lia.
           destruct r as [e|c]; [|exact Hres].
           destruct Hres as (a' & -> & Hp & Hc). exists a'.
           repeat split; auto. destruct Hc; [left|right]; auto.
      * apply Nat.ltb_ge in A. assert (left = 0%nat) by lia. subst left.
        cbn [request_loop] in H. unfold throw in H. inversion H; subst.
        exists 0%nat. cbn [seq map requests sleeps].
        rewrite Nat.add_0_r, app_nil_r.
        repeat split; try lia. exists a. rewrite P. auto.
  - inversion H; subst. exists 0%nat. cbn [seq map requests sleeps].
    rewrite Nat.add_0_r, app_nil_r. repeat split; try lia. exact P.
Qed.

(** X11. For any number of retries, [makeOpenAIRequest] sends between one
    and retries + 1 requests, sleeps once between two requests, 1000 ms
    the first time and twice the last delay each time after, and ends on
    the answer to its last request: that completion, or that error when
    it is a client error or the retries are used up. *)
Theorem request_trace
        (E : env) (prompt : jsstring) (retries : nat) (w : world)
        (r : exn + completion) (w' : world) :
  makeOpenAIRequest E prompt retries w = (r, w') ->
  exists k,
    (k <= retries)%nat
    /\ requests w' = (requests w + S k)%nat
    /\ sleeps w' = sleeps w ++ map backoff (seq 0 k)
    /\ match r with
       | inr c => provider E prompt (requests w + k) = inr c
       | inl e =>
           exists a, e = ApiError a
                     /\ provider E prompt (requests w + k) = inl a
                     /\ (client_error e = true \/ k = retries)
       end.
Proof.
  intros H. unfold makeOpenAIRequest in H.
  apply request_loop_trace in H; [|lia|lia].
  destruct H as (k & Hk & Hr & Hs & Hres).
  exists k. repeat split; auto; try lia.
  destruct r as [e|c]; auto.
  destruct Hres as (a & -> & Hp & Hc). exists a. repeat split; auto.
  destruct Hc; [left|right]; auto; lia.
Qed.

Lemma request_trace_witness :
  makeOpenAIRequest (always_failing 503) (lit "prompt") 4 start
  = (inl (ApiError (failure 503)),
     {| requests := 5; sleeps := [1000; 2000; 4000; 8000]%Z |})
  /\ exists k,
       (k <= 4)%nat
       /\ 5%nat = (0 + S k)%nat
       /\ [1000; 2000; 4000; 8000]%Z = [] ++ map backoff (seq 0 k).
Proof.
  assert (H : makeOpenAIRequest (always_failing 503) (lit "prompt") 4 start
              = (inl (ApiError (failure 503)),
                 {| requests := 5; sleeps := [1000; 2000; 4000; 8000]%Z |}))
    by (vm_compute; reflexivity).
  split; [exact H|].
  destruct (request_trace _ _ _ _ _ _ H) as (k & Hk & Hr & Hs & _).
  exists k. auto.
Defined.

Lemma length_trim_zero s : (length (trim s) =? 0)%nat = blank s.
Proof.
  destruct (blank s) eqn:B.
  - apply trim_blank in B. now rewrite B.
  - destruct (trim s) eqn:T; [|reflexivity].
    apply trim_blank in T. congruence.
Qed.

Lemma ready_iff (E : env) (text : jsstring) :
  ready E text = true <->
  falsy (OPENAI_API_KEY E) = false /\ blank text = false.
Proof.
  unfold ready. rewrite length_trim_zero.
  assert (F : falsy (Some text) = true -> blank text = true)
    by (destruct text; [reflexivity|discriminate]).
  destruct (falsy (OPENAI_API_KEY E)), (falsy (Some text)),
    (blank text); simpl; split; try tauto; try discriminate;
    try (intros [_ H]; discriminate H); try (intros [H _]; discriminate H).
Qed.

Lemma ready_requests
      (E : env) (text : jsstring) (count : option number) (w : world)
      (r : exn + list json) (w' : world) :
  ready E text = true ->
  generateFaqs E text count w = (r, w') ->
  (requests w < requests w' <= requests w + 3)%nat.
Proof.
  intros R H. rewrite (generateFaqs_ready _ _ _ _ R) in H.
  destruct (makeOpenAIRequest E (prompt_of text count) 2 w)
    as [r1 w1] eqn:Q.
  unfold makeOpenAIRequest in Q.
  apply request_loop_trace in Q; [|lia|lia].
  destruct Q as (k & Hk & Hr & _).
  assert (W : w' = w1) by (destruct r1; inversion H; reflexivity).
  subst w'. lia.
Qed.

(** X12. Without a key, or with a blank text, [generateFaqs] throws at
    once: no request is sent and nothing is slept.  The key is looked at
    first.  In every other case a request is sent: the call sends a
    request exactly when the key is set and the text is not blank, and
    then at most three. *)
Theorem refused_before_any_request
        (E : env) (text : jsstring) (count : option number) (w : world) :
  (falsy (OPENAI_API_KEY E) = true ->
   generateFaqs E text count w
   = (inl (wrapped (lit "OPENAI_API_KEY is not defined in environment variables")),
      w))
  /\ (falsy (OPENAI_API_KEY E) = false -> blank text = true ->
      generateFaqs E text count w
      = (inl (wrapped (lit "Text content is required and cannot be empty")),
         w))
  /\ (ready E text = true <->
      falsy (OPENAI_API_KEY E) = false /\ blank text = false)
  /\ (forall r w',
         generateFaqs E text count w = (r, w') ->
         ((requests w < requests w')%nat <->
          falsy (OPENAI_API_KEY E) = false /\ blank text = false)
         /\ (requests w' <= requests w + 3)%nat).
Proof.
  split; [|split; [|split]].
  - intros K. unfold generateFaqs, generateFaqs_try, try_catch.
    rewrite K. reflexivity.
  - intros K B. unfold generateFaqs, generateFaqs_try, try_catch.
    rewrite K, length_trim_zero, B, orb_true_r. reflexivity.
  - apply ready_iff.
  - intros r w' H. rewrite <- ready_iff.
    destruct (ready E text) eqn:R.
    + pose proof (ready_requests _ _ _ _ _ _ R H) as L.
      split; [|lia]. split; [reflexivity|lia].
    + destruct (generateFaqs_not_ready E text count w R) as [e G].
      rewrite G in H. inversion H; subst w'.
      split; [|lia]. split; [lia|discriminate].
Qed.

Definition keyless : env :=
  {| OPENAI_API_KEY := None;
     provider := fun _ _ => inr {| content := Some (faqs_text 5) |};
     syntax_error_message := engine_message |}.

Lemma refused_before_any_request_witness :
  generateFaqs keyless some_text (Some (Fin 5)) start
  = (inl (wrapped (lit "OPENAI_API_KEY is not defined in environment variables")),
     start)
  /\ generateFaqs (answering (faqs_text 5)) (qlit "  |  ") (Some (Fin 5))
                  start
     = (inl (wrapped (lit "Text content is required and cannot be empty")),
        start)
  /\ (requests start
      < requests (snd (generateFaqs (always_failing 503) some_text
                                    (Some (Fin 5)) start)))%nat.
Proof.
  split; [|split].
  - apply (proj1 (refused_before_any_request keyless some_text
                    (Some (Fin 5)) start)). reflexivity.
  - apply (proj1 (proj2 (refused_before_any_request
                           (answering (faqs_text 5)) (qlit "  |  ")
                           (Some (Fin 5)) start))); reflexivity.
  - apply (proj1 (proj2 (proj2 (proj2 (refused_before_any_request
                                         (always_failing 503) some_text
                                         (Some (Fin 5)) start)))
                    (fst (generateFaqs (always_failing 503) some_text
                                       (Some (Fin 5)) start))
                    (snd (generateFaqs (always_failing 503) some_text
                                       (Some (Fin 5)) start))
                    (surjective_pairing _))).
    split; reflexivity.
Defined.

Lemma direct_decode_array js v :
  direct_decode js = Some v -> is_array v = true.
Proof.
  unfold direct_decode.
  destruct (JSON_parse js) as [parsed|]; [|discriminate].
  destruct parsed as [| | | |items|members]; cbn [get_member is_array];
    try discriminate.
  - intros H; inversion H. reflexivity.
  - destruct (get_prop (lit "faqs") members) as [[| | | |items|m]|];
      try discriminate.
    intros H; inversion H. reflexivity.
Qed.

Lemma decode_fallback_array E js v :
  SynthesizerSpec.decode_fallback E js = inr v -> is_array v = true.
Proof.
  unfold SynthesizerSpec.decode_fallback.
  destruct (JSON_parse _) as [x|]; [|discriminate].
  destruct (is_array x) eqn:A; [|discriminate].
  intros H; inversion H; subst. exact A.
Qed.

(** X13. [parseFaqResponse] gives arrays only: the test of line 75 never
    fires on what it returns. *)
Theorem parsed_is_array (E : env) (c : completion) (faqs : json) :
  parseFaqResponse E c = inr faqs -> exists items, faqs = JArray items.
Proof.
  intros H.
  assert (A : is_array faqs = true).
  { destruct (content c) as [[|x t]|] eqn:C;
      try (unfold parseFaqResponse in H; rewrite C in H; discriminate).
    rewrite (SynthesizerSpec.parseFaqResponse_text E c (x :: t) C) in H
      by discriminate.
    destruct (direct_decode (strip_fences (x :: t))) as [v|] eqn:D.
    - inversion H; subst. exact (direct_decode_array _ _ D).
    - exact (decode_fallback_array _ _ _ H). }
  destruct faqs; try discriminate A. eauto.
Qed.

Lemma parsed_is_array_witness :
  parseFaqResponse (answering (faqs_text 5))
                   {| content := Some (faqs_text 5) |}
  = inr (JArray (items_from 1 5))
  /\ exists items, JArray (items_from 1 5) = JArray items.
Proof.
  assert (H : parseFaqResponse (answering (faqs_text 5))
                               {| content := Some (faqs_text 5) |}
              = inr (JArray (items_from 1 5))) by (vm_compute; reflexivity).
  split; [exact H|]. exact (parsed_is_array _ _ _ H).
Defined.


Lemma validate_error i items e :
  validate_from i items = inl e -> exists m, e = Error m /\ m <> [].
Proof.
  revert i. induction items as [|faq rest IH]; intros i; cbn [validate_from];
    [discriminate|].
  destruct (negb (is_object faq)).
  { intros H; inversion H. eexists; split; [reflexivity|].
    unfold msg_not_object. discriminate. }
  destruct (negb (valid_text (get_member faq (lit "question")))).
  { intros H; inversion H. eexists; split; [reflexivity|].
    unfold msg_no_question. discriminate. }
  destruct (negb (valid_text (get_member faq (lit "answer")))).
  { intros H; inversion H. eexists; split; [reflexivity|].
    unfold msg_no_answer. discriminate. }
  destruct (validate_from (S i) rest) as [e'|r] eqn:V; [|discriminate].
  intros H; inversion H; subst. exact (IH _ V).
Qed.

Lemma check_error n faqs e :
  check_faqs n faqs = inl e -> exists m, e = Error m /\ m <> [].
Proof.
  unfold check_faqs.
  assert (L : forall s, exists m, Error (lit s) = Error m /\ (lit s <> [] -> m <> []))
    by (intros s; eexists; split; [reflexivity|auto]).
  destruct faqs as [| | | |items|];
    try (intros H; inversion H; eexists; split; [reflexivity|discriminate]).
  destruct (length items =? 0)%nat.
  { intros H; inversion H; eexists; split; [reflexivity|discriminate]. }
  destruct (validate_from 0 items) as [e'|fs] eqn:V.
  { intros H; inversion H; subst. exact (validate_error _ _ _ V). }
  destruct (n <? length fs)%nat.
  - destruct (negb (length (firstn n fs) =? n)%nat); [|discriminate].
    intros H; inversion H; eexists; split; [reflexivity|].
    unfold msg_mismatch. discriminate.
  - destruct (length fs <? n)%nat.
    + intros H; inversion H; eexists; split; [reflexivity|].
      unfold msg_deficit. discriminate.
    + destruct (negb (length fs =? n)%nat); [|discriminate].
      intros H; inversion H; eexists; split; [reflexivity|].
      unfold msg_mismatch. discriminate.
Qed.

Lemma parse_error_surfaced E c e :
  parseFaqResponse E c = inl e -> exists m, surface e = Error m /\ m <> [].
Proof.
  unfold parseFaqResponse.
  destruct (content c) as [[|x t]|].
  - intros H; injection H as <-. eexists; split; [reflexivity|discriminate].
  - destruct (direct_decode _); [discriminate|].
    destruct (JSON_parse _) as [v|].
    + destruct (is_array v); [discriminate|].
      intros H; injection H as <-.
      eexists; split; [reflexivity|discriminate].
    + intros H; injection H as <-.
      eexists; split; [reflexivity|discriminate].
  - intros H; injection H as <-. eexists; split; [reflexivity|discriminate].
Qed.

Lemma cannot_read_message {A} (target : slot A) key :
  exists m, cannot_read target key = Error m /\ m <> [].
Proof.
  unfold cannot_read. eexists; split; [reflexivity|discriminate].
Qed.

Lemma provider_error_surfaced a :
  (exists m, surface (ApiError a) = Error m /\ m <> [])
  \/ (surface (ApiError a) = ApiError a
      /\ response a = None /\ falsy (message a) = true).
Proof.
  unfold surface. destruct (response a) as [r|].
  - left.
    destruct (resp_status r =? 429)%Z.
    { destruct (headers r); try apply cannot_read_message.
      eexists; split; [reflexivity|discriminate]. }
    destruct ((400 <=? resp_status r) && (resp_status r <? 500))%Z.
    { destruct (data r); try apply cannot_read_message.
      eexists; split; [reflexivity|discriminate]. }
    destruct (500 <=? resp_status r)%Z;
      [eexists; split; [reflexivity|discriminate]|].
    destruct (data r); try apply cannot_read_message.
    eexists; split; [reflexivity|discriminate].
  - destruct (message a) as [[|x m]|].
    + right. auto.
    + left. eexists; split; [reflexivity|discriminate].
    + right. auto.
Qed.

Lemma thrown_eq {A} (a b : exn) (w w' : world) :
  (@inl exn A a, w) = (inl b, w') -> a = b /\ w = w'.
Proof. intros H; inversion H; auto. Qed.

Lemma ready_thrown
      (E : env) (text : jsstring) (count : option number) (w : world)
      (e : exn) (w' : world) :
  ready E text = true ->
  generateFaqs E text count w = (inl e, w') ->
  (exists m, e = Error m /\ m <> [])
  \/ (exists a, e = ApiError a /\ response a = None
                /\ falsy (message a) = true).
Proof.
  intros R H. rewrite (generateFaqs_ready _ _ _ _ R) in H.
  destruct (makeOpenAIRequest E (prompt_of text count) 2 w)
    as [[e0|c] w1] eqn:Q.
  - destruct (makeOpenAIRequest_throws _ _ _ _ _ Q) as [a ->].
    apply thrown_eq in H as [<- <-].
    destruct (provider_error_surfaced a) as [(m & -> & Hm)|(-> & Hr & Hf)].
    + left. eauto.
    + right. eauto.
  - unfold finish in H.
    destruct (parseFaqResponse E c) as [e1|faqs] eqn:P.
    + apply thrown_eq in H as [<- <-].
      destruct (parse_error_surfaced _ _ _ P) as (m & -> & Hm).
      left. eauto.
    + destruct (check_faqs (faqCount count) faqs) as [e1|res] eqn:C;
        [|discriminate].
      apply thrown_eq in H as [<- <-].
      destruct (check_error _ _ _ C) as (m & -> & Hm).
      rewrite (surface_Error _ Hm). left. eexists; split; [reflexivity|].
      discriminate.
Qed.

Lemma not_ready_thrown
      (E : env) (text : jsstring) (count : option number) (w : world)
      (e : exn) (w' : world) :
  ready E text = false ->
  generateFaqs E text count w = (inl e, w') ->
  exists m, e = Error m /\ m <> [].
Proof.
  unfold ready, generateFaqs, generateFaqs_try, try_catch, throw.
  destruct (falsy (OPENAI_API_KEY E)).
  - intros _ H. apply thrown_eq in H as [<- <-].
    eexists; split; [reflexivity|discriminate].
  - destruct (falsy (Some text) || _); [|discriminate].
    intros _ H. apply thrown_eq in H as [<- <-].
    eexists; split; [reflexivity|discriminate].
Qed.

(** X14. What [generateFaqs] throws is an [Error] with a message that is
    not empty, whatever went wrong underneath, a SyntaxError included.
    The one exception is an error of the provider that has no response
    and no message: it is thrown as it came. *)
Theorem thrown_has_message
        (E : env) (text : jsstring) (count : option number) (w : world)
        (e : exn) (w' : world) :
  generateFaqs E text count w = (inl e, w') ->
  (exists m, e = Error m /\ m <> [])
  \/ (exists a, e = ApiError a /\ response a = None
                /\ falsy (message a) = true).
Proof.
  intros H. destruct (ready E text) eqn:R.
  - exact (ready_thrown _ _ _ _ _ _ R H).
  - left. exact (not_ready_thrown _ _ _ _ _ _ R H).
Qed.

Lemma thrown_has_message_witness :
  generateFaqs (always_failing 503) some_text (Some (Fin 5)) start
  = (inl (Error (lit "OpenAI API error: request failed")),
     {| requests := 3; sleeps := [1000; 2000]%Z |})
  /\ ((exists m, Error (lit "OpenAI API error: request failed") = Error m
                 /\ m <> [])
      \/ (exists a, Error (lit "OpenAI API error: request failed")
                    = ApiError a
                    /\ response a = None /\ falsy (message a) = true)).
Proof.
  assert (H : generateFaqs (always_failing 503) some_text (Some (Fin 5))
                           start
              = (inl (Error (lit "OpenAI API error: request failed")),
                 {| requests := 3; sleeps := [1000; 2000]%Z |}))
    by (vm_compute; reflexivity).
  split; [exact H|]. exact (thrown_has_message _ _ _ _ _ _ H).
Defined.

End SynthMore.

(* ===================================================================== *)
(** * [validateFaqs] and the synthesizer's caller *)
(* ===================================================================== *)

Module Caller.
Import JS Json Synth Fetch.

Definition msg_count_validation (expectedCount got : nat) : jsstring :=
  lit "FAQ count validation failed: expected exactly "
    ++ show_nat expectedCount ++ lit " FAQs but got " ++ show_nat got.

(** Lines 242-275 of the service, [validateFaqs]: what the array holds
    when the function returns, or what it throws.  Its loop is the loop of
    lines 83-101 again. *)
Definition validateFaqs (faqs : json) (expectedCount : nat)
  : exn + list json :=
  match faqs with
  | JArray faqs =>
      if (length faqs =? 0)%nat then inl (Error (lit "No FAQs generated"))
      else
        match validate_from 0 faqs with
        | inl e => inl e
        | inr faqs =>
            if negb (length faqs =? expectedCount)%nat
            then inl (Error (msg_count_validation expectedCount
                                                  (length faqs)))
            else inr faqs
        end
  | _ => inl (Error (lit "FAQs must be an array"))
  end.

(** [error.message] of what was thrown; reading it off [undefined]
    throws. *)
Definition message_of (error : exn) : option jsstring :=
  match error with
  | Error m | SyntaxError m => Some m
  | ApiError a => message a
  | Undefined => None
  end.

(** Lines 57-79 of the controller, [generateFaqsController].  [text] is
    [req.body.text], empty when it is missing.  No reply is sent when the
    catch block itself throws, which it does on an error without a
    message. *)
Definition generateFaqsController (E : env) (text : jsstring)
           (count : option number)
  : world -> option reply * world :=
  fun w =>
    match text with
    | [] => (Some {| code := 400;
                     payload := ErrorBody (lit "Text is required") |}, w)
    | _ =>
        match generateFaqs E text count w with
        | (inr faqs, w') =>
            (Some {| code := 200;
                     payload := FaqsBody (length faqs) faqs |}, w')
        | (inl error, w') =>
            match message_of error with
            | Some m =>
                if includes m (lit "Rate limit")
                then (Some {| code := 429; payload := ErrorBody m |}, w')
                else (Some {| code := 500; payload := ErrorBody m |}, w')
            | None => (None, w')
            end
        end
    end.

End Caller.

Module CallerSpec.
Import JS Json Synth Count Retry Validate Collapse ExtractorMore Fetch
       FetchSpec SynthMore Caller Scenarios.

(** X15. [validateFaqs] and the checks inlined in [generateFaqs] agree on
    every list but one kind: what [validateFaqs] lets pass, the inline
    checks return unchanged; what the inline checks return, [validateFaqs]
    lets pass too, unless the list was longer than the count, which it
    refuses and the inline checks cut; and what the inline checks refuse,
    [validateFaqs] refuses. *)
Theorem validateFaqs_and_inline_checks (faqs : json) (n : nat) :
  (forall res, validateFaqs faqs n = inr res -> check_faqs n faqs = inr res)
  /\ (forall res,
         check_faqs n faqs = inr res ->
         validateFaqs faqs n = inr res
         \/ exists items,
              faqs = JArray items /\ (n < length items)%nat
              /\ validateFaqs faqs n
                 = inl (Error (msg_count_validation n (length items))))
  /\ (forall e, check_faqs n faqs = inl e ->
                exists e', validateFaqs faqs n = inl e').
Proof.
  unfold validateFaqs, check_faqs.
  destruct faqs as [| | | |items|];
    try solve [repeat split; intros; try discriminate; eauto].
  destruct (length items =? 0)%nat;
    [solve [repeat split; intros; try discriminate; eauto]|].
  destruct (validate_from 0 items) as [e0|fs] eqn:V;
    [solve [repeat split; intros; try discriminate; eauto]|].
  destruct (validate_from_inr _ _ _ V) as [_ ->].
  assert (Lm : length (map trim_faq items) = length items)
    by apply length_map.
  destruct (length items =? n)%nat eqn:Q.
  - apply Nat.eqb_eq in Q.
    assert (Q' : (length (map trim_faq items) =? n)%nat = true)
      by (apply Nat.eqb_eq; lia).
    assert (L1 : (n <? length (map trim_faq items))%nat = false)
      by (apply Nat.ltb_ge; lia).
    assert (L2 : (length (map trim_faq items) <? n)%nat = false)
      by (apply Nat.ltb_ge; lia).
    rewrite Q', L1, L2. cbn [negb]. rewrite Q'. cbn [negb].
    repeat split; intros; try discriminate; eauto.
  - apply Nat.eqb_neq in Q.
    assert (Q' : (length (map trim_faq items) =? n)%nat = false)
      by (apply Nat.eqb_neq; lia).
    rewrite Q'. cbn [negb].
    split; [intros; discriminate|]. split.
    + intros res H. right. exists items. split; [reflexivity|].
      destruct (n <? length (map trim_faq items))%nat eqn:L.
      * apply Nat.ltb_lt in L. rewrite Lm. split; [lia|reflexivity].
      * apply Nat.ltb_ge in L.
        assert (L' : (length (map trim_faq items) <? n)%nat = true)
          by (apply Nat.ltb_lt; lia).
        rewrite L' in H. discriminate.
    + intros e _. eauto.
Qed.

Lemma validateFaqs_witness :
  validateFaqs (JArray (items_from 1 5)) 5 = inr (items_from 1 5)
  /\ check_faqs 5 (JArray (items_from 1 5)) = inr (items_from 1 5)
  /\ check_faqs 5 (JArray (items_from 1 6)) = inr (items_from 1 5)
  /\ validateFaqs (JArray (items_from 1 6)) 5
     = inl (Error (msg_count_validation 5 6)).
Proof.
  assert (H : validateFaqs (JArray (items_from 1 5)) 5
              = inr (items_from 1 5)) by (vm_compute; reflexivity).
  assert (K : check_faqs 5 (JArray (items_from 1 6))
              = inr (items_from 1 5)) by (vm_compute; reflexivity).
  split; [exact H|]. split; [|split; [exact K|]].
  - exact (proj1 (validateFaqs_and_inline_checks _ _) _ H).
  - destruct (proj1 (proj2 (validateFaqs_and_inline_checks _ _)) _ K)
      as [V|(items & E & _ & V)].
    + vm_compute in V. discriminate V.
    + injection E as <-. exact V.
Defined.

Lemma faqs_reply E text count w faqs w' :
  text <> [] ->
  generateFaqs E text count w = (inr faqs, w') ->
  generateFaqsController E text count w
  = (Some {| code := 200; payload := FaqsBody (length faqs) faqs |}, w').
Proof.
  intros T H. unfold generateFaqsController.
  destruct text; [congruence|]. now rewrite H.
Qed.

Lemma error_reply E text count w e w' :
  text <> [] ->
  generateFaqs E text count w = (inl e, w') ->
  generateFaqsController E text count w
  = match message_of e with
    | Some m =>
        (Some {| code := if includes m (lit "Rate limit")
                         then 429%Z else 500%Z;
                 payload := ErrorBody m |}, w')
    | None => (None, w')
    end.
Proof.
  intros T H. unfold generateFaqsController.
  destruct text; [congruence|]. rewrite H.
  destruct (message_of e) as [m|]; [|reflexivity].
  destruct (includes m (lit "Rate limit")); reflexivity.
Qed.

(** X16. What [generateFaqsController] answers.  Without a text it
    answers 400 and no request goes to the provider.  With a text it
    answers 200 with exactly the clamped count of items, or 429 when the
    message of the error names a rate limit, or 500; it sends no reply
    at all only for a provider error that has neither response nor
    message. *)
Theorem controller_replies
        (E : env) (text : jsstring) (count : option number) (w : world)
        (r : option reply) (w' : world) :
  generateFaqsController E text count w = (r, w') ->
  match r with
  | Some rep =>
      (text = [] /\ w' = w
       /\ rep = {| code := 400;
                   payload := ErrorBody (lit "Text is required") |})
      \/ (text <> [] /\ code rep = 200%Z
          /\ exists faqs,
               payload rep = FaqsBody (faqCount count) faqs
               /\ length faqs = faqCount count
               /\ generateFaqs E text count w = (inr faqs, w'))
      \/ (text <> []
          /\ exists m,
               payload rep = ErrorBody m
               /\ code rep = if includes m (lit "Rate limit")
                             then 429%Z else 500%Z)
  | None =>
      exists a,
        generateFaqs E text count w = (inl (ApiError a), w')
        /\ response a = None /\ message a = None
  end.
Proof.
  intros H. destruct text as [|c t] eqn:T.
  - unfold generateFaqsController in H. inversion H; subst. left. auto.
  - rewrite <- T in *. assert (Hne : text <> []) by (subst; discriminate).
    clear T.
    destruct (generateFaqs E text count w) as [[e|faqs] w1] eqn:G.
    + rewrite (error_reply _ _ _ _ _ _ Hne G) in H.
      assert (T : (exists m, e = Error m /\ m <> [])
                  \/ (exists a, e = ApiError a /\ response a = None
                                /\ falsy (message a) = true)).
      { destruct (ready E text) eqn:R.
        - exact (ready_thrown _ _ _ _ _ _ R G).
        - left. exact (not_ready_thrown _ _ _ _ _ _ R G). }
      destruct T as [(m & -> & _)|(a & -> & Hr & Hf)].
      * cbn [message_of] in H. inversion H; subst.
        right; right. split; [assumption|]. exists m. auto.
      * cbn [message_of] in H. destruct (message a) as [[|x m]|] eqn:M;
          try discriminate Hf.
        -- inversion H; subst. right; right. split; [assumption|].
           exists []. auto.
        -- inversion H; subst. exists a. auto.
    + rewrite (faqs_reply _ _ _ _ _ _ Hne G) in H. inversion H; subst.
      right; left. split; [assumption|]. split; [reflexivity|].
      exists faqs.
      destruct (generateFaqs_success _ _ _ _ _ _ G)
        as (_ & c' & v & _ & _ & Hc).
      destruct (check_faqs_inr _ _ _ Hc) as (items & _ & _ & _ & Hlen).
      cbn [payload]. rewrite Hlen. auto.
Qed.

Lemma controller_replies_witness :
  generateFaqsController (answering (faqs_text 9)) some_text
                         (Some (Fin 7)) start
  = (Some {| code := 200; payload := FaqsBody 7 (items_from 1 7) |},
     {| requests := 1; sleeps := [] |})
  /\ exists faqs,
       FaqsBody 7 (items_from 1 7) = FaqsBody (faqCount (Some (Fin 7))) faqs
       /\ length faqs = faqCount (Some (Fin 7)).
Proof.
  assert (H : generateFaqsController (answering (faqs_text 9)) some_text
                                     (Some (Fin 7)) start
              = (Some {| code := 200;
                         payload := FaqsBody 7 (items_from 1 7) |},
                 {| requests := 1; sleeps := [] |}))
    by (vm_compute; reflexivity).
  split; [exact H|].
  destruct (controller_replies _ _ _ _ _ _ H)
    as [(T & _)|[(_ & _ & faqs & Hp & Hl & _)|(_ & m & Hp & _)]].
  - vm_compute in T. discriminate T.
  - exists faqs. auto.
  - cbn [payload] in Hp. discriminate Hp.
Defined.

(** The seconds the catch block of [generateFaqs] names: the header, or
    60. *)
Definition seconds (h : response_headers) : jsstring :=
  match retry_after h with
  | Some ((_ :: _) as s) => s
  | _ => lit "60"
  end.

(** What the client gets for a response of status 429, by the headers the
    response carries. *)
Definition rate_limit_answer (hs : slot response_headers) : reply :=
  match hs with
  | Has h =>
      {| code := 429;
         payload :=
           ErrorBody (lit "Rate limit exceeded. Please try again after "
                        ++ seconds h ++ lit " seconds.") |}
  | Missing =>
      {| code := 500;
         payload :=
           ErrorBody (lit "Cannot read properties of undefined (reading 'retry-after')") |}
  | IsNull =>
      {| code := 500;
         payload :=
           ErrorBody (lit "Cannot read properties of null (reading 'retry-after')") |}
  end.

(** X17. A provider error whose response has status 429 and carries a
    headers object is answered with 429 and the seconds to wait, taken
    from the retry-after header or 60 without one, whatever the retries
    before it.  When the response carries no headers object, reading the
    header throws, and the answer is 500 with the message of that
    TypeError. *)
Theorem rate_limit_reply
        (E : env) (text : jsstring) (count : option number) (w : world)
        (a : api_error) (r : http_response) (w' : world) :
  ready E text = true ->
  makeOpenAIRequest E (prompt_of text count) 2 w = (inl (ApiError a), w') ->
  response a = Some r ->
  resp_status r = 429%Z ->
  generateFaqsController E text count w
  = (Some (rate_limit_answer (headers r)), w').
Proof.
  intros R Q Hr Hs.
  assert (Hne : text <> []).
  { intros ->. unfold ready in R. rewrite andb_true_iff in R.
    destruct R as [_ R]. discriminate R. }
  assert (G : generateFaqs E text count w
              = (inl (surface (ApiError a)), w'))
    by now rewrite (generateFaqs_ready _ _ _ _ R), Q.
  assert (S : surface (ApiError a)
              = match headers r with
                | Has h =>
                    Error (lit "Rate limit exceeded. Please try again after "
                             ++ seconds h ++ lit " seconds.")
                | other => cannot_read other "retry-after"
                end).
  { unfold surface. rewrite Hr, Hs. cbn [Z.eqb Pos.eqb].
    destruct (headers r) as [| |h]; try reflexivity.
    unfold seconds. destruct (retry_after h) as [[|x s]|]; reflexivity. }
  rewrite S in G. unfold rate_limit_answer.
  destruct (headers r) as [| |h].
  - rewrite (error_reply _ _ _ _ _ _ Hne G). reflexivity.
  - rewrite (error_reply _ _ _ _ _ _ Hne G). reflexivity.
  - rewrite (error_reply _ _ _ _ _ _ Hne G). cbn [message_of].
    change (lit "Rate limit exceeded. Please try again after "
              ++ seconds h ++ lit " seconds.")
      with (lit "Rate limit"
              ++ (lit " exceeded. Please try again after "
                    ++ seconds h ++ lit " seconds.")).
    now rewrite includes_prefix.
Qed.

(** A rejection as an HTTP client library reports it: the status stands
    in the response only. *)
Definition limited : api_error :=
  {| status := None;
     response :=
       Some {| resp_status := 429;
               headers := Has {| retry_after := Some (lit "7") |};
               data := Has {| data_error_message := None;
                              data_message := None |} |};
     message := Some (lit "Request failed with status code 429") |}.

(** The same rejection with a response that has a status and nothing
    else. *)
Definition limited_bare : api_error :=
  {| status := None;
     response := Some {| resp_status := 429; headers := Missing;
                         data := Missing |};
     message := Some (lit "Request failed with status code 429") |}.

Definition always_limited (a : api_error) : env :=
  {| OPENAI_API_KEY := Some (lit "sk-test");
     provider := fun _ _ => inl a;
     syntax_error_message := engine_message |}.

Lemma rate_limit_reply_witness :
  generateFaqsController (always_limited limited) some_text (Some (Fin 5))
                         start
  = (Some {| code := 429;
             payload :=
               ErrorBody (lit "Rate limit exceeded. Please try again after 7 seconds.") |},
     {| requests := 3; sleeps := [1000; 2000]%Z |})
  /\ generateFaqsController (always_limited limited_bare) some_text
                            (Some (Fin 5)) start
     = (Some {| code := 500;
                payload :=
                  ErrorBody (lit "Cannot read properties of undefined (reading 'retry-after')") |},
        {| requests := 3; sleeps := [1000; 2000]%Z |}).
Proof.
  split.
  - apply (rate_limit_reply (always_limited limited) some_text
             (Some (Fin 5)) start limited
             {| resp_status := 429;
                headers := Has {| retry_after := Some (lit "7") |};
                data := Has {| data_error_message := None;
                               data_message := None |} |}
             {| requests := 3; sleeps := [1000; 2000]%Z |});
      vm_compute; reflexivity.
  - apply (rate_limit_reply (always_limited limited_bare) some_text
             (Some (Fin 5)) start limited_bare
             {| resp_status := 429; headers := Missing; data := Missing |}
             {| requests := 3; sleeps := [1000; 2000]%Z |});
      vm_compute; reflexivity.
Defined.

End CallerSpec.

(* ===================================================================== *)
(** * The items returned and the text sent *)
(* ===================================================================== *)

Module Items.
Import JS Json Synth Count Retry Validate Tidy Collapse ExtractorMore
       SynthMore Scenarios.

(** An object whose question and answer are trimmed texts that are not
    empty. *)
Definition well_formed (faq : json) : Prop :=
  exists members q a,
    faq = JObject members
    /\ get_prop (lit "question") members = Some (JString q)
    /\ q <> [] /\ trim q = q
    /\ get_prop (lit "answer") members = Some (JString a)
    /\ a <> [] /\ trim a = a.

(** The names of an object's members, in their order. *)
Definition keys (faq : json) : list jsstring :=
  match faq with
  | JObject members => map fst members
  | _ => []
  end.

Lemma jsstring_eqb_refl a : jsstring_eqb a a = true.
Proof.
  unfold jsstring_eqb. destruct (list_eq_dec N.eq_dec a a); congruence.
Qed.

Lemma jsstring_eqb_eq a b : jsstring_eqb a b = true -> a = b.
Proof.
  unfold jsstring_eqb. destruct (list_eq_dec N.eq_dec a b); congruence.
Qed.

Lemma get_set_same k v members :
  get_prop k (set_prop k v members) = Some v.
Proof.
  induction members as [|[k' v'] r IH]; cbn [set_prop get_prop].
  - now rewrite jsstring_eqb_refl.
  - destruct (jsstring_eqb k k') eqn:E; cbn [get_prop]; rewrite E; auto.
Qed.

Lemma get_set_other k k' v members :
  jsstring_eqb k k' = false ->
  get_prop k (set_prop k' v members) = get_prop k members.
Proof.
  intros H. induction members as [|[k0 v0] r IH]; cbn [set_prop get_prop].
  - now rewrite H.
  - destruct (jsstring_eqb k' k0) eqn:E; cbn [get_prop].
    + destruct (jsstring_eqb k k0) eqn:E0; auto.
      apply jsstring_eqb_eq in E, E0. subst.
      rewrite jsstring_eqb_refl in H. discriminate.
    + destruct (jsstring_eqb k k0); auto.
Qed.

Lemma keys_set_present k v members x :
  get_prop k members = Some x ->
  map fst (set_prop k v members) = map fst members.
Proof.
  induction members as [|[k0 v0] r IH]; cbn [set_prop get_prop];
    [discriminate|].
  destruct (jsstring_eqb k k0); [reflexivity|].
  intros H. cbn [map fst]. now rewrite (IH H).
Qed.

Lemma valid_text_inv x :
  valid_text x = true ->
  exists s, x = Some (JString s) /\ s <> [] /\ trim s <> [].
Proof.
  destruct x as [[| | |s| |]|]; try discriminate. cbn [valid_text].
  intros H. apply andb_true_iff in H as [H1 H2]. exists s.
  split; [reflexivity|]. split.
  - destruct s; [discriminate|discriminate].
  - intros T. rewrite T in H2. discriminate.
Qed.

Lemma valid_faq_inv faq :
  valid_faq faq = true ->
  exists members q a,
    faq = JObject members
    /\ get_prop (lit "question") members = Some (JString q)
    /\ trim q <> []
    /\ get_prop (lit "answer") members = Some (JString a)
    /\ trim a <> [].
Proof.
  unfold valid_faq. intros H.
  apply andb_true_iff in H as [H Ha]. apply andb_true_iff in H as [Ho Hq].
  apply valid_text_inv in Hq as (q & Hq & _ & Tq).
  apply valid_text_inv in Ha as (a & Ha & _ & Ta).
  destruct faq as [| | | |items|members]; try discriminate.
  exists members, q, a. cbn [get_member] in *. auto.
Qed.

Lemma trim_faq_valid members q a :
  get_prop (lit "question") members = Some (JString q) ->
  get_prop (lit "answer") members = Some (JString a) ->
  trim_faq (JObject members)
  = JObject (set_prop (lit "answer") (JString (trim a))
               (set_prop (lit "question") (JString (trim q)) members)).
Proof.
  intros Hq Ha. unfold trim_faq, trim_member. rewrite Hq.
  rewrite get_set_other by reflexivity. now rewrite Ha.
Qed.

Lemma trim_faq_well_formed faq :
  valid_faq faq = true -> well_formed (trim_faq faq).
Proof.
  intros H. apply valid_faq_inv in H as (m & q & a & -> & Hq & Tq & Ha & Ta).
  rewrite (trim_faq_valid _ _ _ Hq Ha).
  eexists _, (trim q), (trim a). split; [reflexivity|].
  rewrite get_set_other by reflexivity. rewrite !get_set_same.
  repeat split; auto; apply trim_idem.
Qed.

Lemma In_firstn {A} n (l : list A) x : In x (firstn n l) -> In x l.
Proof.
  revert l; induction n as [|n IH]; intros [|y l]; simpl; try tauto.
  intros [->|H]; auto.
Qed.

(** X18. Every item of a successful call is an object whose question and
    answer are texts that are trimmed and not empty. *)
Theorem returned_items_well_formed
        (E : env) (text : jsstring) (count : option number) (w : world)
        (res : list json) (w' : world) :
  generateFaqs E text count w = (inr res, w') ->
  Forall well_formed res.
Proof.
  intros H.
  destruct (generateFaqs_success _ _ _ _ _ _ H) as (_ & c & v & _ & _ & Hc).
  destruct (check_faqs_inr _ _ _ Hc) as (items & _ & Hv & -> & _).
  apply Forall_forall. intros x Hx. apply In_firstn in Hx.
  apply in_map_iff in Hx as (faq & <- & Hin).
  apply trim_faq_well_formed.
  rewrite forallb_forall in Hv. auto.
Qed.

(** An answer whose second item has spaces around its two texts. *)
Definition padded_text : jsstring :=
  qlit "{'faqs':[" ++ item_text 1
       ++ qlit ",{'question':'  Q2 ','answer':'\n A2\n','source':'p. 3'},"
       ++ items_text 3 3 ++ qlit "]}".

Lemma returned_items_well_formed_witness :
  fst (generateFaqs (answering padded_text) some_text (Some (Fin 5)) start)
  = inr [ item 1;
          JObject [ (lit "question", JString (lit "Q2"));
                    (lit "answer", JString (lit "A2"));
                    (lit "source", JString (lit "p. 3")) ];
          item 3; item 4; item 5 ]
  /\ Forall well_formed
            [ item 1;
              JObject [ (lit "question", JString (lit "Q2"));
                        (lit "answer", JString (lit "A2"));
                        (lit "source", JString (lit "p. 3")) ];
              item 3; item 4; item 5 ].
Proof.
  assert (H : generateFaqs (answering padded_text) some_text (Some (Fin 5))
                           start
              = (inr [ item 1;
                       JObject [ (lit "question", JString (lit "Q2"));
                                 (lit "answer", JString (lit "A2"));
                                 (lit "source", JString (lit "p. 3")) ];
                       item 3; item 4; item 5 ],
                 {| requests := 1; sleeps := [] |}))
    by (vm_compute; reflexivity).
  split; [now rewrite H|].
  exact (returned_items_well_formed _ _ _ _ _ _ H).
Defined.

Lemma trim_member_keeps k0 faq k :
  keys (trim_member k0 faq) = keys faq
  /\ (jsstring_eqb k k0 = false ->
      get_member (trim_member k0 faq) k = get_member faq k).
Proof.
  destruct faq as [| | | |items|members]; try (split; reflexivity).
  unfold trim_member.
  destruct (get_prop k0 members) as [[| | |s| |]|] eqn:G;
    try (split; reflexivity).
  cbn [keys get_member]. split.
  - eapply keys_set_present; eauto.
  - intros H. now apply get_set_other.
Qed.

(** X19. Trimming an item touches its question and its answer only: the
    members keep their names and their order, and every other member
    keeps its value. *)
Theorem trim_faq_keeps_the_rest (faq : json) (k : jsstring) :
  keys (trim_faq faq) = keys faq
  /\ (jsstring_eqb k (lit "question") = false ->
      jsstring_eqb k (lit "answer") = false ->
      get_member (trim_faq faq) k = get_member faq k).
Proof.
  unfold trim_faq.
  destruct (trim_member_keeps (lit "answer")
              (trim_member (lit "question") faq) k) as [K1 G1].
  destruct (trim_member_keeps (lit "question") faq k) as [K2 G2].
  split.
  - now rewrite K1, K2.
  - intros Hq Ha. now rewrite (G1 Ha), (G2 Hq).
Qed.

Lemma trim_faq_keeps_the_rest_witness :
  get_member
    (trim_faq (JObject [ (lit "question", JString (lit " Q "));
                         (lit "source", JString (lit " p. 3 "));
                         (lit "answer", JString (lit " A ")) ]))
    (lit "source")
  = Some (JString (lit " p. 3 ")).
Proof.
  rewrite (proj2 (trim_faq_keeps_the_rest
                    (JObject [ (lit "question", JString (lit " Q "));
                               (lit "source", JString (lit " p. 3 "));
                               (lit "answer", JString (lit " A ")) ])
                    (lit "source")) eq_refl eq_refl).
  reflexivity.
Defined.



End Items.

(* ===================================================================== *)
(** * Fenced answers *)
(* ===================================================================== *)

Module Fences.
Import JS Json Synth Tidy Collapse ExtractorMore Scenarios.

Definition BACKTICK : N := 96.

(** A text inside a json fence, a line feed on either side. *)
Definition fenced (body : jsstring) : jsstring :=
  lit "```json" ++ LF :: body ++ LF :: lit "```".

Lemma In_trimStart c s : In c (trimStart s) -> In c s.
Proof.
  induction s as [|d r IH]; simpl; auto.
  destruct (is_space d); simpl; auto.
Qed.

Lemma In_trimEnd c s : In c (trimEnd s) -> In c s.
Proof.
  induction s as [|d r IH]; simpl; auto.
  destruct (trimEnd r) as [|x l].
  - destruct (is_space d); simpl; tauto.
  - intros [->|H]; auto.
Qed.

Lemma In_trim c s : In c (trim s) -> In c s.
Proof. intros H. apply In_trimStart, In_trimEnd, H. Qed.

Lemma json_fence_needs_backtick c t :
  c <> BACKTICK -> re_json_fence (c :: t) = None.
Proof.
  intros H. unfold re_json_fence.
  change (lit "```json") with (BACKTICK :: lit "``json").
  cbn [strip_prefix]. destruct (N.eqb_spec BACKTICK c); congruence.
Qed.

Lemma fence_needs_backtick c t :
  c <> BACKTICK -> re_fence (c :: t) = None.
Proof.
  intros H. unfold re_fence.
  change (lit "```") with (BACKTICK :: lit "``").
  cbn [strip_prefix]. destruct (N.eqb_spec BACKTICK c); congruence.
Qed.

(** A replacement whose matches all start with a backtick passes over a
    stretch without one. *)
Lemma replace_all_quiet m rep x y :
  (forall c t, c <> BACKTICK -> m (c :: t) = None) ->
  ~ In BACKTICK x ->
  replace_all m rep 0 (x ++ y) = x ++ replace_all m rep 0 y.
Proof.
  intros Hm. induction x as [|c x IH]; intros Hx; [reflexivity|].
  cbn [app replace_all]. rewrite Hm by (intros ->; apply Hx; left; auto).
  rewrite IH; [reflexivity|]. intros H. apply Hx. right. exact H.
Qed.

Lemma trimEnd_app_keep x y :
  trimEnd y <> [] -> trimEnd (x ++ y) = x ++ trimEnd y.
Proof.
  intros Hy. induction x as [|a x IH]; [reflexivity|].
  cbn [app trimEnd]. rewrite IH.
  destruct (x ++ trimEnd y) eqn:E; [|reflexivity].
  apply app_eq_nil in E. tauto.
Qed.

Lemma trimEnd_app_space z c :
  is_space c = true -> trimEnd (z ++ [c]) = trimEnd z.
Proof.
  intros H. induction z as [|a z IH]; cbn [app trimEnd].
  - now rewrite H.
  - now rewrite IH.
Qed.

Lemma trimStart_app_first x y :
  blank x = false -> trimStart (x ++ y) = trimStart x ++ y.
Proof.
  unfold blank. induction x as [|a x IH]; [discriminate|].
  cbn [forallb app trimStart]. destruct (is_space a); [|reflexivity].
  exact IH.
Qed.

Lemma trimStart_app_blank x y :
  blank x = true -> trimStart (x ++ y) = trimStart y.
Proof.
  unfold blank. induction x as [|a x IH]; [reflexivity|].
  cbn [forallb app trimStart]. destruct (is_space a); [|discriminate].
  exact IH.
Qed.

Lemma trim_app_space x c : is_space c = true -> trim (x ++ [c]) = trim x.
Proof.
  intros H. unfold trim. destruct (blank x) eqn:B.
  - rewrite (trimStart_app_blank _ _ B). cbn [trimStart]. rewrite H.
    apply trim_blank in B. unfold trim in B. now rewrite B.
  - rewrite (trimStart_app_first _ _ B). now apply trimEnd_app_space.
Qed.

Lemma replace_all_untouched m rep x :
  (forall c t, c <> BACKTICK -> m (c :: t) = None) ->
  ~ In BACKTICK x ->
  replace_all m rep 0 x = x.
Proof.
  intros Hm. induction x as [|c x IH]; intros Hx; [reflexivity|].
  cbn [replace_all]. rewrite Hm by (intros ->; apply Hx; left; auto).
  rewrite IH; [reflexivity|]. intros H. apply Hx. right. exact H.
Qed.

Lemma strip_plain s : ~ In BACKTICK s -> strip_fences s = trim s.
Proof.
  intros H. unfold strip_fences.
  assert (Ht : ~ In BACKTICK (trim s)) by (intros K; apply H, In_trim, K).
  rewrite (replace_all_untouched _ _ _ json_fence_needs_backtick Ht).
  rewrite (replace_all_untouched _ _ _ fence_needs_backtick Ht).
  apply trim_idem.
Qed.

Lemma fenced_split body :
  fenced body = (lit "```json" ++ LF :: body ++ [LF]) ++ lit "```".
Proof.
  unfold fenced. rewrite <- app_assoc. cbn [app]. rewrite <- app_assoc.
  reflexivity.
Qed.

Lemma strip_fenced body :
  ~ In BACKTICK body -> strip_fences (fenced body) = trim body.
Proof.
  intros H. unfold strip_fences.
  assert (T : trim (fenced body) = fenced body).
  { unfold trim. rewrite trimStart_fixed by reflexivity.
    rewrite fenced_split, trimEnd_app_keep; [reflexivity|discriminate]. }
  rewrite T. unfold fenced.
  set (rest := body ++ LF :: lit "```").
  assert (P1 : replace_all re_json_fence [] 0
                           (lit "```json" ++ LF :: rest)
               = replace_all re_json_fence [] 0 (trimStart rest)).
  { change (lit "```json" ++ LF :: rest)
      with (BACKTICK :: (lit "``json" ++ LF :: rest)).
    cbn [replace_all].
    change (re_json_fence (BACKTICK :: (lit "``json" ++ LF :: rest)))
      with (Some (7 + span_length is_space (LF :: rest))%nat).
    cbn [Nat.add app]. rewrite replace_all_skip.
    change (skipn (S (S (S (S (S (S (span_length is_space (LF :: rest))))))))
                  (lit "``json" ++ LF :: rest))
      with (skipn (span_length is_space (LF :: rest)) (LF :: rest)).
    rewrite <- trimStart_skip. reflexivity. }
  rewrite P1.
  assert (R : trimStart rest = trimStart (body ++ [LF]) ++ lit "```").
  { subst rest. destruct (blank (body ++ [LF])) eqn:B.
    - change (body ++ LF :: lit "```") with (body ++ [LF] ++ lit "```").
      rewrite app_assoc, (trimStart_app_blank _ _ B).
      apply trim_blank in B. unfold trim in B.
      apply trimEnd_nil_filter in B. rewrite filter_trimStart in B.
      apply blank_filter, (trimStart_app_blank _ []) in B.
      rewrite app_nil_r in B. cbn [trimStart] in B. rewrite B. reflexivity.
    - change (body ++ LF :: lit "```") with (body ++ [LF] ++ lit "```").
      rewrite app_assoc. now apply trimStart_app_first. }
  rewrite R.
  assert (Hb : ~ In BACKTICK (trimStart (body ++ [LF]))).
  { intros K. apply In_trimStart, in_app_or in K as [K|[K|[]]]; auto.
    discriminate K. }
  rewrite (replace_all_quiet _ _ _ _ json_fence_needs_backtick Hb).
  change (replace_all re_json_fence [] 0 (lit "```")) with (lit "```").
  rewrite (replace_all_quiet _ _ _ _ fence_needs_backtick Hb).
  change (replace_all re_fence [] 0 (lit "```")) with (@nil N).
  rewrite app_nil_r. unfold trim.
  rewrite (trimStart_fixed _ (trimStart_solid _)).
  fold (trim (body ++ [LF])). now apply trim_app_space.
Qed.

(** X21. A text without a backtick is only trimmed by the removal of the
    fences, and the same text inside a json fence comes out as that
    trimmed text: with or without the fence, [parseFaqResponse] gives the
    same result. *)
Theorem fence_does_not_matter (E : env) (body : jsstring) :
  ~ In BACKTICK body ->
  body <> [] ->
  strip_fences body = trim body
  /\ strip_fences (fenced body) = trim body
  /\ parseFaqResponse E {| content := Some (fenced body) |}
     = parseFaqResponse E {| content := Some body |}.
Proof.
  intros H Hne.
  pose proof (strip_plain _ H) as P. pose proof (strip_fenced _ H) as F.
  repeat split; auto.
  unfold parseFaqResponse. cbn [content].
  change (fenced body) with (BACKTICK :: (lit "``json" ++ LF :: body
                                             ++ LF :: lit "```")) at 1.
  cbv iota. fold (fenced body).
  destruct body as [|c b]; [congruence|].
  now rewrite P, F.
Qed.

Lemma fence_does_not_matter_witness :
  strip_fences (fenced (faqs_text 5)) = trim (faqs_text 5)
  /\ parseFaqResponse (answering (faqs_text 5))
                      {| content := Some (fenced (faqs_text 5)) |}
     = parseFaqResponse (answering (faqs_text 5))
                        {| content := Some (faqs_text 5) |}.
Proof.
  assert (H : ~ In BACKTICK (faqs_text 5)).
  { intros K. vm_compute in K.
    repeat (destruct K as [K|K]; [discriminate K|]). exact K. }
  assert (N : faqs_text 5 <> []) by discriminate.
  destruct (fence_does_not_matter (answering (faqs_text 5)) (faqs_text 5)
              H N) as (_ & F & P).
  split; [exact F|exact P].
Defined.

End Fences.
